(** * goanywhere/webapp: the live-reload hub and the gob/base64 helpers

    A shallow embedding of [web/livereload.go] (the notification hub, its
    tunnels and the three protocol frames) and of [utils.go]
    ([Serialize] / [Deserialize]), followed by the properties of the
    specification that concern them.

    Layout: Part I holds the definitions, Part II the theorems. *)

From Stdlib Require Import ZArith Lia Ascii String.
From stdpp Require Import base option list gmap.

Local Open Scope Z_scope.

(** Go's [[]byte] is a sequence of octets; Go's [string] is kept as [string]. *)
Abbreviation bytes := (list ascii).

(* ===================================================================== *)
(** * Part I. Definitions *)
(* ===================================================================== *)

(** ** Errors ([error] values that reach the modelled code) *)

Inductive error : Type :=
  | CorruptInputError            (* encoding/base64: illegal base64 data *)
  | GobError (msg : string)      (* encoding/gob: any failure of Encode / Decode *)
  | UpgradeError (msg : string). (* gorilla/websocket: handshake failure *)

(** ** encoding/base64, [URLEncoding] (RFC 4648 section 5, padded with '=')

    [utils.go] calls [base64.URLEncoding.EncodeToString] and
    [base64.URLEncoding.DecodeString].  Both are written out after the
    library's [Encode] and [decodeQuantum]: 24-bit quanta assembled with
    shifts and ors, the URL-safe alphabet, '=' padding, and a decoder
    that skips CR and LF. *)
Module base64.

Definition encodeURL : string :=
  "ABCDEFGHIJKLMNOPQRSTUVWXYZabcdefghijklmnopqrstuvwxyz0123456789-_".

Definition padChar : ascii := "="%char.

Definition uint (b : ascii) : Z := Z.of_N (N_of_ascii b).

(** [byte(v)]: conversion of an unsigned word to a byte keeps the low 8 bits. *)
Definition byte (v : Z) : ascii := ascii_of_N (Z.to_N (Z.land v 255)).

(** [enc.encode[v]] *)
Definition encode (v : Z) : ascii :=
  nth (Z.to_nat v) (list_ascii_of_string encodeURL) "000"%char.

Fixpoint index_from (c : ascii) (alphabet : bytes) (i : Z) : Z :=
  match alphabet with
  | [] => 255
  | a :: rest => if Ascii.eqb a c then i else index_from c rest (i + 1)
  end.

(** [enc.decodeMap[c]]: the position of [c] in the alphabet, 0xff otherwise. *)
Definition decodeMap (c : ascii) : Z :=
  index_from c (list_ascii_of_string encodeURL) 0.

(** [Encode]: three bytes become four symbols; a last group of one or
    two bytes is padded. *)
Fixpoint Encode (src : bytes) : bytes :=
  match src with
  | [] => []
  | [b0] =>
      let val := Z.shiftl (uint b0) 16 in
      [ encode (Z.land (Z.shiftr val 18) 63);
        encode (Z.land (Z.shiftr val 12) 63);
        padChar; padChar ]
  | [b0; b1] =>
      let val := Z.lor (Z.shiftl (uint b0) 16) (Z.shiftl (uint b1) 8) in
      [ encode (Z.land (Z.shiftr val 18) 63);
        encode (Z.land (Z.shiftr val 12) 63);
        encode (Z.land (Z.shiftr val 6) 63);
        padChar ]
  | b0 :: b1 :: b2 :: rest =>
      let val := Z.lor (Z.lor (Z.shiftl (uint b0) 16) (Z.shiftl (uint b1) 8))
                       (uint b2) in
      encode (Z.land (Z.shiftr val 18) 63)
      :: encode (Z.land (Z.shiftr val 12) 63)
      :: encode (Z.land (Z.shiftr val 6) 63)
      :: encode (Z.land val 63)
      :: Encode rest
  end.

Definition EncodeToString (src : bytes) : string :=
  string_of_list_ascii (Encode src).

Definition is_newline (c : ascii) : bool :=
  Ascii.eqb c "010"%char || Ascii.eqb c "013"%char.

Fixpoint skip_newlines (src : bytes) : bytes :=
  match src with
  | c :: rest => if is_newline c then skip_newlines rest else src
  | [] => []
  end.

(** The tail of [decodeQuantum]: [dlen] symbols were read into [dbuf];
    they yield [dlen - 1] bytes. *)
Definition assemble (dbuf : list Z) (dlen : nat) : bytes :=
  let d k := nth k dbuf 0 in
  let val := Z.lor (Z.lor (Z.lor (Z.shiftl (d 0%nat) 18) (Z.shiftl (d 1%nat) 12))
                          (Z.shiftl (d 2%nat) 6)) (d 3%nat) in
  take (dlen - 1) [ byte (Z.shiftr val 16); byte (Z.shiftr val 8); byte val ].

(** After the padding of the last quantum only CR / LF may follow. *)
Definition finish (rest : bytes) (dbuf : list Z) (dlen : nat)
  : bytes * option error :=
  (assemble dbuf dlen,
   match skip_newlines rest with [] => None | _ => Some CorruptInputError end).

(** [Decode]: [dbuf] holds the symbols of the quantum being read. *)
Fixpoint Decode (src : bytes) (dbuf : list Z) : bytes * option error :=
  match src with
  | [] =>
      match dbuf with
      | [] => ([], None)
      | _ => ([], Some CorruptInputError)
      end
  | c :: rest =>
      let out := decodeMap c in
      if negb (out =? 255) then
        let dbuf' := dbuf ++ [out] in
        if (length dbuf' =? 4)%nat then
          let '(bs, err) := Decode rest [] in (assemble dbuf' 4 ++ bs, err)
        else Decode rest dbuf'
      else if is_newline c then Decode rest dbuf
      else if negb (Ascii.eqb c padChar) then ([], Some CorruptInputError)
      else
        match length dbuf with
        | 0%nat | 1%nat => ([], Some CorruptInputError)
        | 2%nat =>
            match skip_newlines rest with
            | [] => ([], Some CorruptInputError)
            | c2 :: rest2 =>
                if Ascii.eqb c2 padChar then finish rest2 dbuf 2
                else ([], Some CorruptInputError)
            end
        | _ => finish rest dbuf 3
        end
  end.

Definition DecodeString (s : string) : bytes * option error :=
  Decode (list_ascii_of_string s) [].

End base64.

(** ** encoding/gob

    [gob] is an external, type-directed codec; it is taken as an
    interface.  [gob_Encode x] is what [gob.NewEncoder(buffer).Encode(x)]
    leaves in [buffer] together with its error; [gob_Decode bits y] is
    what [gob.NewDecoder(bytes.NewBuffer(bits)).Decode(&y)] leaves in
    [y] together with its error. *)
Class Gob (T : Type) := {
  gob_Encode : T -> bytes * option error;
  gob_Decode : bytes -> T -> T * option error
}.

(** ** utils.go *)

(** [func Deserialize(value string, object interface{}) (err error)].

    The named result [err] starts as [nil].  [if bits, err := ...] declares
    a second [err], local to the [if]; the assignment inside the block
    writes that inner variable, and the bare [return] hands back the outer
    one.  The result is the new content of the target and the returned
    error. *)
Definition Deserialize {T} `{Gob T} (value : string) (object : T)
  : T * option error :=
  let err : option error := None in
  let '(bits, err_inner) := base64.DecodeString value in
  match err_inner with
  | None =>
      let '(object', err_inner') := gob_Decode bits object in
      (object', err)
  | Some _ => (object, err)
  end.

(** [func Serialize(object interface{}) (value string, err error)]. *)
Definition Serialize {T} `{Gob T} (object : T) : string * option error :=
  let '(buffer, err) := gob_Encode object in
  match err with
  | None => (base64.EncodeToString buffer, err)
  | Some _ => (EmptyString, err)
  end.

(** ** web/livereload.go: protocol messages *)

Record hello := {
  hello_Command : string;
  hello_Protocols : list string;
  hello_ServerName : string
}.

Record alert := {
  alert_Command : string;
  alert_Message : string
}.

Record reload := {
  reload_Command : string;
  reload_Path : string;
  reload_LiveCSS : bool
}.

(** The values handed to [json.Marshal] in this file. *)
Inductive frame : Type :=
  | FHello (h : hello)
  | FAlert (a : alert)
  | FReload (r : reload).

(** [encoding/json] is an external encoder; it is taken as an interface.
    [json_Marshal v] is the pair returned by [json.Marshal(&v)]. *)
Class JSON := { json_Marshal : frame -> bytes * option error }.

(** ** [bytes.HasPrefix] and [bytes.Contains] *)

Fixpoint HasPrefix (s prefix : bytes) : bool :=
  match prefix, s with
  | [], _ => true
  | p :: ps, c :: cs => Ascii.eqb p c && HasPrefix cs ps
  | _ :: _, [] => false
  end.

Fixpoint Contains (b subslice : bytes) : bool :=
  HasPrefix b subslice
  || match b with
     | [] => false
     | _ :: rest => Contains rest subslice
     end.

Definition quote : ascii := "034"%char.

(** The raw literal ["command":"hello"], quotes included (17 bytes). *)
Definition command_hello : bytes :=
  quote :: list_ascii_of_string "command"
  ++ [quote; ":"%char; quote] ++ list_ascii_of_string "hello" ++ [quote].

(** ** Channels

    A buffered Go channel of byte slices: the queued elements, the
    capacity given to [make], and whether [close] was called. *)
Record chan := {
  buf : list bytes;
  cap : nat;
  closed : bool
}.

Definition make_chan (n : nat) : chan := {| buf := []; cap := n; closed := false |}.

Definition chan_push (m : bytes) (c : chan) : chan :=
  {| buf := buf c ++ [m]; cap := cap c; closed := closed c |}.

Definition chan_pop (c : chan) : chan :=
  {| buf := tail (buf c); cap := cap c; closed := closed c |}.

Definition chan_close (c : chan) : chan :=
  {| buf := buf c; cap := cap c; closed := true |}.

Definition chan_full (c : chan) : bool := (cap c <=? length (buf c))%nat.

(** ** Tunnels and the goroutines attached to them *)

(** A [*tunnel] is an address. *)
Abbreviation tid := nat.

(** Where the goroutine running [Serve] (and, inside it, the read loop of
    [connect]) stands. *)
Inductive serve_pc : Type :=
  | SJoin                    (* at [self.in <- tn] *)
  | SRead                    (* at [self.ws.ReadMessage()] *)
  | SSend (b : bytes)        (* at [self.message <- bytes] *)
  | SLeave (panicking : bool)(* in the deferred func, at [self.out <- tn] *)
  | SDone.

(** Where the goroutine of the write loop stands. *)
Inductive writer_pc : Type :=
  | WNone                    (* [connect] not entered yet *)
  | WRange                   (* at [for message := range self.message] *)
  | WDone.                   (* after [self.ws.Close()] *)

(** The [tunnel] struct ([ws], [message]) together with its two goroutines.
    Of the connection only whether this side closed it is kept. *)
Record tunnel := {
  ws_closed : bool;
  message : chan;
  serve : serve_pc;
  writer : writer_pc
}.

Definition set_ws_closed (v : bool) (tn : tunnel) : tunnel :=
  {| ws_closed := v; message := message tn; serve := serve tn; writer := writer tn |}.
Definition set_message (c : chan) (tn : tunnel) : tunnel :=
  {| ws_closed := ws_closed tn; message := c; serve := serve tn; writer := writer tn |}.
Definition set_serve (pc : serve_pc) (tn : tunnel) : tunnel :=
  {| ws_closed := ws_closed tn; message := message tn; serve := pc; writer := writer tn |}.
Definition set_writer (pc : writer_pc) (tn : tunnel) : tunnel :=
  {| ws_closed := ws_closed tn; message := message tn; serve := serve tn; writer := pc |}.

(** ** The hub *)

(** Where the goroutine launched by [Start] stands. *)
Inductive hub_pc : Type :=
  | HIdle                                (* [Start] not called *)
  | HSelect                              (* at the outer [select] *)
  | HRange (m : bytes) (todo : list tid) (* in [for tunnel := range self.tunnels] *)
  | HLockWait                            (* inside [self.mutex.Lock()], lock held *)
  | HPanic.                              (* panicked: the process is gone *)

Inductive actor : Type :=
  | Hub
  | Reader (t : tid)
  | Writer (t : tid).

(** What is recorded of an execution. *)
Inductive event : Type :=
  | EvInsert (t : tid)                       (* [self.tunnels[t] = true] *)
  | EvDelete (t : tid)                       (* [delete(self.tunnels, t)] *)
  | EvClose (who : actor) (t : tid)          (* [close(t.message)] executed *)
  | EvEnqueue (who : actor) (t : tid) (m : bytes) (* [t.message <- m] completed *)
  | EvDequeue (t : tid) (m : bytes).         (* the write loop received [m] *)

(** The [lrserver] singleton [Livereload] and everything that runs around
    it.  [broadcast], [in] and [out] are unbuffered channels: they hold
    nothing, a send completes when the hub receives.  [javascript] is a
    constant served by [ServeJS] and plays no part here.

    - [tunnels], [mutex]: the fields of [lrserver] ([mutex]: write-locked);
    - [deferred]: calls of [self.mutex.Unlock] deferred by the goroutine of
      [Start], to run when its function returns;
    - [heap]: the tunnels allocated so far;
    - [senders]: the goroutines of [Alert] / [Reload], each at
      [self.broadcast <- bytes]. *)
Record world := {
  tunnels : gmap tid bool;
  mutex : bool;
  deferred : nat;
  hub : hub_pc;
  heap : gmap tid tunnel;
  senders : list bytes;
  trace : list event
}.

Definition set_tunnels (r : gmap tid bool) (w : world) : world :=
  {| tunnels := r; mutex := mutex w; deferred := deferred w; hub := hub w;
     heap := heap w; senders := senders w; trace := trace w |}.
Definition set_hub (pc : hub_pc) (w : world) : world :=
  {| tunnels := tunnels w; mutex := mutex w; deferred := deferred w; hub := pc;
     heap := heap w; senders := senders w; trace := trace w |}.
Definition set_heap (h : gmap tid tunnel) (w : world) : world :=
  {| tunnels := tunnels w; mutex := mutex w; deferred := deferred w; hub := hub w;
     heap := h; senders := senders w; trace := trace w |}.
Definition set_senders (l : list bytes) (w : world) : world :=
  {| tunnels := tunnels w; mutex := mutex w; deferred := deferred w; hub := hub w;
     heap := heap w; senders := l; trace := trace w |}.
Definition log (e : event) (w : world) : world :=
  {| tunnels := tunnels w; mutex := mutex w; deferred := deferred w; hub := hub w;
     heap := heap w; senders := senders w; trace := trace w ++ [e] |}.

(** [var Livereload = lrserver{...}]: empty registry, free lock, nothing running. *)
Definition Livereload : world :=
  {| tunnels := ∅; mutex := false; deferred := 0; hub := HIdle;
     heap := ∅; senders := []; trace := [] |}.

(** [self.mutex.Lock(); defer self.mutex.Unlock()] in the goroutine of
    [Start].  [Lock] returns only if the lock is free; the deferred
    [Unlock] is queued until the enclosing function returns.  [None]: the
    caller stays inside [Lock]. *)
Definition Lock_defer_Unlock (w : world) : option world :=
  if mutex w then None
  else Some {| tunnels := tunnels w; mutex := true; deferred := S (deferred w);
               hub := hub w; heap := heap w; senders := senders w;
               trace := trace w |}.

Section Hub.
Context `{JSON}.

(** [func (self *lrserver) Alert(message string)]: a goroutine is
    spawned; it encodes the frame and then stands at
    [self.broadcast <- bytes].  The call itself returns at once. *)
Definition Alert (message : string) (w : world) : world :=
  let '(bytes, _) :=
    json_Marshal (FAlert {| alert_Command := "alert";
                            alert_Message := message |}) in
  set_senders (senders w ++ [bytes]) w.

(** [func (self *lrserver) Reload(path string)]. *)
Definition Reload (path : string) (w : world) : world :=
  let '(bytes, _) :=
    json_Marshal (FReload {| reload_Command := "reload";
                             reload_Path := path;
                             reload_LiveCSS := true |}) in
  set_senders (senders w ++ [bytes]) w.

(** The encoded frames: what [Alert], [Reload] and the read loop hand to
    a channel ([json.Marshal]'s error is dropped, as the code does). *)
Definition alert_frame (message : string) : bytes :=
  (json_Marshal (FAlert {| alert_Command := "alert";
                           alert_Message := message |})).1.

Definition reload_frame (path : string) : bytes :=
  (json_Marshal (FReload {| reload_Command := "reload";
                            reload_Path := path;
                            reload_LiveCSS := true |})).1.

(** [func (self *lrserver) Serve(w, r)] up to its first blocking point.
    [upgrade] is the error returned by [upgrader.Upgrade(w, r, nil)].
    On failure the handler returns.  On success [new(tunnel)] yields an
    unused address, the mailbox is made with room for 256 frames, and
    the goroutine stands at [self.in <- tn]. *)
Definition Serve (upgrade : option error) (w : world) : world :=
  match upgrade with
  | Some _ => w
  | None =>
      let tn := fresh (dom (heap w)) in
      set_heap (<[tn := {| ws_closed := false;
                           message := make_chan 256;
                           serve := SJoin;
                           writer := WNone |}]> (heap w)) w
  end.

(** [func (self *lrserver) Start()]: launches the loop.  It is called once
    ([step_Start] below); a second loop on the same registry is not modelled. *)
Definition Start (w : world) : world := set_hub HSelect w.

(** *** The loop of [Start], one [select] case at a time *)

(** [case tunnel := <-self.in].  The sender ([Serve]) goes on: it
    registers its deferred func and enters [connect], which spawns the
    write loop and reaches [ReadMessage].  The hub locks, defers the
    unlock, and stores the tunnel. *)
Definition hub_join (t : tid) (w : world) : world :=
  let w1 := set_heap (alter (λ tn, set_writer WRange (set_serve SRead tn)) t (heap w)) w in
  match Lock_defer_Unlock w1 with
  | None => set_hub HLockWait w1
  | Some w2 => log (EvInsert t) (set_tunnels (<[t := true]> (tunnels w2)) w2)
  end.

(** [close(tunnel.message)] by the hub: closing a closed channel panics. *)
Definition hub_close (t : tid) (w : world) : world :=
  match heap w !! t with
  | Some tn =>
      let w1 := log (EvClose Hub t) w in
      if closed (message tn) then set_hub HPanic w1
      else set_heap (<[t := set_message (chan_close (message tn)) tn]> (heap w1)) w1
  | None => w
  end.

(** [case tunnel := <-self.out].  The sender (the deferred func of
    [Serve]) is done. *)
Definition hub_leave (t : tid) (w : world) : world :=
  let w1 := set_heap (alter (set_serve SDone) t (heap w)) w in
  match Lock_defer_Unlock w1 with
  | None => set_hub HLockWait w1
  | Some w2 =>
      hub_close t (log (EvDelete t) (set_tunnels (delete t (tunnels w2)) w2))
  end.

(** [case m := <-self.broadcast]: the [i]-th waiting sender is served and
    the hub enters the [range] loop.  [order] is the order in which this
    pass visits the keys of the map. *)
Definition hub_broadcast (i : nat) (m : bytes) (order : list tid) (w : world) : world :=
  set_hub (HRange m order) (set_senders (delete i (senders w)) w).

(** One iteration of [for tunnel := range self.tunnels] on [t], the
    loop continuing with [todo].  A key deleted before it is reached is
    not produced.  The inner [select] sends if it can (a send on a closed
    channel panics), and takes the [default] branch when the mailbox is
    full. *)
Definition hub_visit (m : bytes) (t : tid) (todo : list tid) (w : world) : world :=
  match tunnels w !! t, heap w !! t with
  | Some _, Some tn =>
      if closed (message tn) then set_hub HPanic w
      else if chan_full (message tn) then
        match Lock_defer_Unlock w with
        | None => set_hub HLockWait w
        | Some w1 =>
            set_hub (HRange m todo)
              (hub_close t (log (EvDelete t) (set_tunnels (delete t (tunnels w1)) w1)))
        end
      else
        set_hub (HRange m todo)
          (log (EvEnqueue Hub t m)
             (set_heap (<[t := set_message (chan_push m (message tn)) tn]> (heap w)) w))
  | _, _ => set_hub (HRange m todo) w
  end.

(** The hub goroutine's next move inside the loop. *)
Definition hub_range (w : world) : world :=
  match hub w with
  | HRange m (t :: todo) => hub_visit m t todo w
  | HRange _ [] => set_hub HSelect w
  | _ => w
  end.

(** What a delivery does to a tunnel: the frame goes to the back of its
    mailbox. *)
Definition deliver (m : bytes) (tn : tunnel) : tunnel :=
  set_message (chan_push m (message tn)) tn.


(** A whole pass with nobody else running: [hub_range] until the hub
    leaves the loop. *)
Fixpoint hub_pass (fuel : nat) (w : world) : world :=
  match fuel with
  | O => w
  | S fuel' =>
      match hub w with
      | HRange _ _ => hub_pass fuel' (hub_range w)
      | _ => w
      end
  end.

(** *** [func (self *tunnel) connect()]: the read loop *)

(** The reply built on a [hello] frame. *)
Definition hello_reply : bytes :=
  let '(bytes, _) :=
    json_Marshal (FHello {| hello_Command := "hello";
                            hello_Protocols :=
                              ["http://livereload.com/protocols/official-7"%string];
                            hello_ServerName := "Rex#Livereload" |}) in
  bytes.

(** [ReadMessage] returned [message] without error: [switch true] with
    its single case. *)
Definition reader_message (t : tid) (msg : bytes) (w : world) : world :=
  if Contains msg command_hello
  then set_heap (alter (set_serve (SSend hello_reply)) t (heap w)) w
  else w.

(** [ReadMessage] returned an error: [break], [self.ws.Close()], return
    from [connect] and from [Serve], whose deferred func starts. *)
Definition reader_error (t : tid) (w : world) : world :=
  set_heap (alter (λ tn, set_serve (SLeave false) (set_ws_closed true tn)) t (heap w)) w.

(** [self.message <- bytes], once it can proceed.  On a closed mailbox
    the send panics; the panic unwinds through [Serve] and runs its
    deferred func. *)
Definition reader_send (t : tid) (b : bytes) (w : world) : world :=
  match heap w !! t with
  | Some tn =>
      if closed (message tn)
      then set_heap (<[t := set_serve (SLeave true) tn]> (heap w)) w
      else log (EvEnqueue (Reader t) t b)
             (set_heap (<[t := set_serve SRead
                                 (set_message (chan_push b (message tn)) tn)]> (heap w)) w)
  | None => w
  end.

(** *** [connect]: the write loop *)

(** The [range] received [msg]; [ok] tells whether [WriteMessage]
    succeeded.  On success the frame is logged and a frame containing
    ["command":"hello"] triggers [Livereload.Alert("Connected")]; on
    failure the loop breaks and the connection is closed. *)
Definition writer_message (t : tid) (msg : bytes) (ok : bool) (w : world) : world :=
  let w1 := log (EvDequeue t msg)
              (set_heap (alter (λ tn, set_message (chan_pop (message tn)) tn) t (heap w)) w) in
  if ok then
    if Contains msg command_hello then Alert "Connected" w1 else w1
  else
    set_heap (alter (λ tn, set_writer WDone (set_ws_closed true tn)) t (heap w1)) w1.

(** The mailbox is closed and drained: the [range] ends, then
    [self.ws.Close()]. *)
Definition writer_end (t : tid) (w : world) : world :=
  set_heap (alter (λ tn, set_writer WDone (set_ws_closed true tn)) t (heap w)) w.

(** *** Executions

    One step of one goroutine.  A panic of the hub goroutine ends the
    process; a hub inside [Lock] never moves again, the others go on. *)
Inductive step : world -> world -> Prop :=
  | step_Start w :
      hub w = HIdle ->
      step w (Start w)
  | step_Alert w message :
      hub w ≠ HPanic ->
      step w (Alert message w)
  | step_Reload w path :
      hub w ≠ HPanic ->
      step w (Reload path w)
  | step_Serve w upgrade :
      hub w ≠ HPanic ->
      step w (Serve upgrade w)
  | step_join w t tn :
      hub w = HSelect -> heap w !! t = Some tn -> serve tn = SJoin ->
      step w (hub_join t w)
  | step_leave w t tn panicking :
      hub w = HSelect -> heap w !! t = Some tn -> serve tn = SLeave panicking ->
      step w (hub_leave t w)
  | step_broadcast w i m order :
      hub w = HSelect -> senders w !! i = Some m ->
      order ≡ₚ elements (dom (tunnels w)) ->
      step w (hub_broadcast i m order w)
  | step_range w m todo :
      hub w = HRange m todo ->
      step w (hub_range w)
  | step_reader_message w t tn msg :
      hub w ≠ HPanic -> heap w !! t = Some tn -> serve tn = SRead ->
      ws_closed tn = false ->
      step w (reader_message t msg w)
  | step_reader_error w t tn :
      hub w ≠ HPanic -> heap w !! t = Some tn -> serve tn = SRead ->
      step w (reader_error t w)
  | step_reader_send w t tn b :
      hub w ≠ HPanic -> heap w !! t = Some tn -> serve tn = SSend b ->
      closed (message tn) = true ∨ chan_full (message tn) = false ->
      step w (reader_send t b w)
  | step_writer_message w t tn msg rest ok :
      hub w ≠ HPanic -> heap w !! t = Some tn -> writer tn = WRange ->
      buf (message tn) = msg :: rest ->
      (ws_closed tn = true -> ok = false) ->
      step w (writer_message t msg ok w)
  | step_writer_end w t tn :
      hub w ≠ HPanic -> heap w !! t = Some tn -> writer tn = WRange ->
      buf (message tn) = [] -> closed (message tn) = true ->
      step w (writer_end t w).

(** A frame is well formed when it is the encoding of a [hello], an
    [alert] or a [reload] whose discriminator names its shape. *)
Definition well_formed (b : bytes) : Prop :=
  ∃ v : frame,
    b = (json_Marshal v).1 ∧
    match v with
    | FHello h => hello_Command h = "hello"%string
    | FAlert a => alert_Command a = "alert"%string
    | FReload r => reload_Command r = "reload"%string
    end.

(** The frames that travel on [self.broadcast]. *)
Definition is_alert_or_reload (b : bytes) : Prop :=
  (∃ message, b = alert_frame message) ∨ (∃ path, b = reload_frame path).

(** Who may put what into a mailbox. *)
Definition emitted_ok (e : event) : Prop :=
  match e with
  | EvEnqueue Hub _ m => is_alert_or_reload m
  | EvEnqueue (Reader _) _ m => m = hello_reply
  | EvEnqueue (Writer _) _ _ => False
  | _ => True
  end.

(** Events by which the hub takes a tunnel out: none of them is
    [quiet]. *)
Definition quiet (e : event) : Prop :=
  match e with
  | EvClose _ _ | EvDelete _ => False
  | _ => True
  end.


(** The states the program can be in. *)
Inductive reachable : world -> Prop :=
  | reachable_init : reachable Livereload
  | reachable_step w w' : reachable w -> step w w' -> reachable w'.

(** *** Invariants of executions *)

(** [P] holds of every tunnel allocated so far. *)
Definition tunnels_all (P : tunnel -> Prop) (w : world) : Prop :=
  forall t tn, heap w !! t = Some tn -> P tn.

(** A property of tunnels that every operation of the program keeps. *)
Record stable (P : tunnel -> Prop) : Prop := {
  stable_new : P {| ws_closed := false; message := make_chan 256;
                    serve := SJoin; writer := WNone |};
  stable_ws b tn : P tn -> P (set_ws_closed b tn);
  stable_serve pc tn :
    (forall b, pc = SSend b -> b = hello_reply) -> P tn -> P (set_serve pc tn);
  stable_writer pc tn : P tn -> P (set_writer pc tn);
  stable_push m tn : P tn -> P (set_message (chan_push m (message tn)) tn);
  stable_pop tn : P tn -> P (set_message (chan_pop (message tn)) tn)
}.

Definition stable_close (P : tunnel -> Prop) : Prop :=
  forall tn, P tn -> P (set_message (chan_close (message tn)) tn).

(** No one has joined while the lock is free. *)
Definition lock_free_means_fresh (w : world) : Prop :=
  mutex w = false ->
  tunnels w = ∅ ∧ tunnels_all (λ tn, serve tn = SJoin ∧ writer tn = WNone) w.

(** What the lock discipline of the loop of [Start] maintains. *)
Record lock_inv (w : world) : Prop := {
  inv_alive : hub w ≠ HPanic;
  inv_fresh : lock_free_means_fresh w;
  inv_open : tunnels_all (λ tn, closed (message tn) = false) w;
  inv_size : (size (tunnels w) ≤ 1)%nat;
  inv_quiet : Forall quiet (trace w)
}.

(** What is known of the frames in flight. *)
Record frames_inv (w : world) : Prop := {
  fi_senders : Forall is_alert_or_reload (senders w);
  fi_range : forall m todo, hub w = HRange m todo -> is_alert_or_reload m;
  fi_send : tunnels_all (λ tn, forall b, serve tn = SSend b -> b = hello_reply) w;
  fi_trace : Forall emitted_ok (trace w)
}.


End Hub.

(** ** Instances used in the examples *)

(** A one-byte codec for booleans, standing for [gob] in the examples:
    decoding anything but that one byte fails and leaves the target alone. *)
#[global] Instance gob_bool : Gob bool := {|
  gob_Encode := λ b : bool, ([if b then "001"%char else "000"%char], None);
  gob_Decode := λ (bits : bytes) (y : bool),
    match bits with
    | [c] =>
        if Ascii.eqb c "001"%char then (true, None)
        else if Ascii.eqb c "000"%char then (false, None)
        else (y, Some (GobError "bad value"))
    | _ => (y, Some (GobError "unexpected EOF"))
    end
|}.

Definition quoted (s : string) : bytes :=
  quote :: list_ascii_of_string s ++ [quote].

Fixpoint quoted_list (l : list string) : bytes :=
  match l with
  | [] => []
  | [s] => quoted s
  | s :: rest => quoted s ++ ","%char :: quoted_list rest
  end.

Definition member (key : string) (value : bytes) : bytes :=
  quoted key ++ ":"%char :: value.

Definition json_bool (b : bool) : bytes :=
  list_ascii_of_string (if b then "true" else "false").

(** What [encoding/json] prints for the three structs when no string in
    them needs escaping; it stands for the encoder in the examples. *)
Definition plain_Marshal (v : frame) : bytes * option error :=
  match v with
  | FHello h =>
      ("{"%char :: member "command" (quoted (hello_Command h))
       ++ ","%char :: member "protocols"
            ("["%char :: quoted_list (hello_Protocols h) ++ ["]"%char])
       ++ ","%char :: member "serverName" (quoted (hello_ServerName h))
       ++ ["}"%char], None)
  | FAlert a =>
      ("{"%char :: member "command" (quoted (alert_Command a))
       ++ ","%char :: member "message" (quoted (alert_Message a))
       ++ ["}"%char], None)
  | FReload r =>
      ("{"%char :: member "command" (quoted (reload_Command r))
       ++ ","%char :: member "path" (quoted (reload_Path r))
       ++ ","%char :: member "liveCSS" (json_bool (reload_LiveCSS r))
       ++ ["}"%char], None)
  end.

Definition json_plain : JSON := {| json_Marshal := plain_Marshal |}.

(** ** Scenarios *)

(** One browser connected: [Start], a [Serve] whose upgrade succeeds, and
    the hub taking the join. *)
Definition joined : world :=
  hub_join 0 (Serve None (Start Livereload)).

(** The browser goes away: [ReadMessage] fails, [Serve] unwinds, and the
    hub receives the tunnel on [self.out]. *)
Definition after_leave : world :=
  hub_leave 0 (reader_error 0 joined).



(** The handshake frame of the browser, as the specification quotes it:
    [{"command":"hello","protocols":["http://livereload.com/protocols/official-7"]}]. *)
Definition client_hello : bytes :=
  "{"%char :: member "command" (quoted "hello")
  ++ ","%char :: member "protocols"
       ("["%char :: quoted_list ["http://livereload.com/protocols/official-7"%string]
        ++ ["]"%char])
  ++ ["}"%char].

(** The [info] frame that livereload.js sends after the handshake, cut
    down to its discriminator: [{"command":"info"}]. *)
Definition client_info : bytes :=
  "{"%char :: member "command" (quoted "info") ++ ["}"%char].

(** [joined], then one [Reload] taken by the hub and fanned out. *)
Definition reloaded : world :=
  let frame := @reload_frame json_plain "/static/site.css" in
  hub_pass 2 (hub_broadcast 0 frame [0%nat]
                (@Reload json_plain "/static/site.css" joined)).

(** A browser that joined and keeps sending its handshake, [n] times,
    while nothing is taken out of its mailbox: each frame is answered by
    one reply queued for the write loop. *)
Fixpoint flood (n : nat) : world :=
  match n with
  | O => joined
  | S n' =>
      reader_send 0 (@hello_reply json_plain)
        (@reader_message json_plain 0 client_hello (flood n'))
  end.

(** The mailbox of that browser is full, a caller raises an alert, and
    the hub takes the broadcast and starts its pass. *)
Definition flooded_broadcast : world :=
  hub_pass 2
    (hub_broadcast 0 (@alert_frame json_plain "Connected") [0%nat]
       (@Alert json_plain "Connected" (flood 256))).

(* ===================================================================== *)
(** * Part I, continued. Further definitions *)
(* ===================================================================== *)

(** ** web/livereload.go: what went through a mailbox *)

(** The frames put into the mailbox of [t], oldest first. *)
Fixpoint enqueued (t : tid) (tr : list event) : list bytes :=
  match tr with
  | [] => []
  | EvEnqueue _ t' m :: rest =>
      if decide (t' = t) then m :: enqueued t rest else enqueued t rest
  | _ :: rest => enqueued t rest
  end.

(** The frames the write loop of [t] took out of it, oldest first. *)
Fixpoint dequeued (t : tid) (tr : list event) : list bytes :=
  match tr with
  | [] => []
  | EvDequeue t' m :: rest =>
      if decide (t' = t) then m :: dequeued t rest else dequeued t rest
  | _ :: rest => dequeued t rest
  end.

(** The frames the hub itself put into mailboxes. *)
Fixpoint fanned_out (tr : list event) : list (tid * bytes) :=
  match tr with
  | [] => []
  | EvEnqueue Hub t m :: rest => (t, m) :: fanned_out rest
  | _ :: rest => fanned_out rest
  end.

(** Every mailbox accounts for what was put in and taken out, and stays
    within its capacity. *)
Definition queue_inv (w : world) : Prop :=
  forall t,
    match heap w !! t with
    | Some tn =>
        enqueued t (trace w) = dequeued t (trace w) ++ buf (message tn)
        ∧ (length (buf (message tn)) ≤ cap (message tn))%nat
    | None => enqueued t (trace w) = [] ∧ dequeued t (trace w) = []
    end.

(** A tunnel that went through the join: [Serve] is past [self.in <- tn]
    and the write loop was spawned. *)
Definition has_joined (tn : tunnel) : Prop :=
  serve tn ≠ SJoin ∧ writer tn ≠ WNone.

(** Whatever is in the registry is there with value [true], was allocated
    by [Serve], and went through the join. *)
Definition registry_inv (w : world) : Prop :=
  forall t b, tunnels w !! t = Some b ->
    b = true ∧ ∃ tn, heap w !! t = Some tn ∧ has_joined tn.

(** A second browser arrives after the first one joined: its upgrade
    succeeded and it stands at the join. *)
Definition second_arrives : world := Serve None joined.

(** The first browser's read fails and its [Serve] stands at the leave. *)
Definition leaving : world := reader_error 0 joined.

(** The mailbox of the only browser is full and the hub has just taken a
    broadcast: it is about to visit that tunnel. *)
Definition flooded_start : world :=
  hub_broadcast 0 (@alert_frame json_plain "Connected") [0%nat]
    (@Alert json_plain "Connected" (flood 256)).

(** ** utils.go: the characters of a serialized value *)

(** The characters [base64.URLEncoding] writes: its alphabet and '='. *)
Definition url_safe (c : ascii) : Prop :=
  c ∈ list_ascii_of_string base64.encodeURL ∨ c = base64.padChar.

(** A character the decoder has no use for: not in the alphabet, not the
    padding, not CR or LF. *)
Definition illegal (c : ascii) : Prop :=
  base64.decodeMap c = 255 ∧ base64.is_newline c = false ∧ c ≠ base64.padChar.

(** ** Go's [int] (64 bits, two's complement) *)

Definition int_wrap (z : Z) : Z := (z + 2 ^ 63) mod 2 ^ 64 - 2 ^ 63.

Definition int_add (a b : Z) : Z := int_wrap (a + b).

(** ** context.go: [Context] as a response writer and a key/value store *)

(** What reaches the embedded [http.ResponseWriter]. *)
Inductive rw_call : Type :=
  | RWWriteHeader (status : Z)
  | RWWrite (data : bytes).

(** The [Context] struct: [status], [size], [data], and, for the embedded
    [http.ResponseWriter], the calls forwarded to it so far.  A value of
    type [interface{}] is [None] for [nil]. *)
Record Context (V : Type) := {
  ctx_status : Z;
  ctx_size : Z;
  ctx_data : gmap string (option V);
  ctx_forwarded : list rw_call
}.
Arguments ctx_status {V} _.
Arguments ctx_size {V} _.
Arguments ctx_data {V} _.
Arguments ctx_forwarded {V} _.

(** [func NewContext(w, r) *Context]: [status] keeps its zero value,
    [size] is set to -1, [data] is a fresh map. *)
Definition NewContext (V : Type) : Context V :=
  {| ctx_status := 0; ctx_size := -1; ctx_data := ∅; ctx_forwarded := [] |}.

(** [func (self *Context) Status() int] *)
Definition Status {V} (self : Context V) : Z := ctx_status self.

(** [func (self *Context) Size() int] *)
Definition Size {V} (self : Context V) : Z := ctx_size self.

(** [func (self *Context) Written() bool] *)
Definition Written {V} (self : Context V) : bool := negb (ctx_status self =? 0).

(** [func (self *Context) WriteHeader(status int)] *)
Definition WriteHeader {V} (status : Z) (self : Context V) : Context V :=
  if (100 <=? status) && (status <? 512) then
    {| ctx_status := status; ctx_size := ctx_size self; ctx_data := ctx_data self;
       ctx_forwarded := ctx_forwarded self ++ [RWWriteHeader status] |}
  else self.

(** [func (self *Context) Write(data []byte) (size int, err error)].
    [result] is what the embedded writer's [Write] returns for [data]. *)
Definition Write {V} (data : bytes) (result : Z * option error) (self : Context V)
  : Context V * (Z * option error) :=
  let self1 := if negb (Written self) then WriteHeader 200 self else self in
  let '(size, err) := result in
  ({| ctx_status := ctx_status self1;
      ctx_size := int_add (ctx_size self1) size;
      ctx_data := ctx_data self1;
      ctx_forwarded := ctx_forwarded self1 ++ [RWWrite data] |},
   (size, err)).

(** A handler writing several chunks, one [Write] after the other. *)
Fixpoint Writes {V} (chunks : list (bytes * (Z * option error))) (self : Context V)
  : Context V :=
  match chunks with
  | [] => self
  | (data, result) :: rest => Writes rest (Write data result self).1
  end.

(** [func (self *Context) Get(key string) interface{}] *)
Definition Get {V} (key : string) (self : Context V) : option V :=
  match ctx_data self !! key with
  | None => None
  | Some value => value
  end.

Definition set_data {V} (d : gmap string (option V)) (self : Context V) : Context V :=
  {| ctx_status := ctx_status self; ctx_size := ctx_size self; ctx_data := d;
     ctx_forwarded := ctx_forwarded self |}.

(** [func (self *Context) Set(key string, value interface{})] *)
Definition Set_ {V} (key : string) (value : option V) (self : Context V) : Context V :=
  set_data (<[key := value]> (ctx_data self)) self.

(** [func (self *Context) Delete(key string)] *)
Definition Delete {V} (key : string) (self : Context V) : Context V :=
  set_data (delete key (ctx_data self)) self.

(** [func (self *Context) Clear()]: [for key := range self.data] deletes
    the key it is at; [order] is the order in which the map hands out its
    keys, and a key already gone is not produced. *)
Fixpoint Clear_loop {V} (order : list string) (d : gmap string (option V))
  : gmap string (option V) :=
  match order with
  | [] => d
  | key :: rest =>
      match d !! key with
      | Some _ => Clear_loop rest (delete key d)
      | None => Clear_loop rest d
      end
  end.

Definition Clear {V} (order : list string) (self : Context V) : Context V :=
  set_data (Clear_loop order (ctx_data self)) self.

(** ** crypto/random.go *)

(** A [rune] is a code point held in an [int32]. *)
Abbreviation rune := Z (only parsing).








(** The calls a handler makes on a [Context] as a response writer. *)
Inductive rw_op : Type :=
  | OpWriteHeader (status : Z)
  | OpWrite (data : bytes) (result : Z * option error).

Definition rw_step {V} (op : rw_op) (self : Context V) : Context V :=
  match op with
  | OpWriteHeader status => WriteHeader status self
  | OpWrite data result => (Write data result self).1
  end.

Definition rw_run {V} (ops : list rw_op) (self : Context V) : Context V :=
  foldl (λ c op, rw_step op c) self ops.

(** The byte counts the embedded writer reported, added up. *)
Fixpoint reported (ops : list rw_op) : Z :=
  match ops with
  | [] => 0
  | OpWriteHeader _ :: rest => reported rest
  | OpWrite _ (size, _) :: rest => size + reported rest
  end.

(** The embedded writer reports counts as [io.Writer] asks:
    [0 <= n <= len(data)]. *)
Definition honest (op : rw_op) : Prop :=
  match op with
  | OpWriteHeader _ => True
  | OpWrite data (size, _) => 0 <= size <= Z.of_nat (length data)
  end.

(** The last status forwarded to the embedded writer. *)
Fixpoint last_header (calls : list rw_call) : option Z :=
  match calls with
  | [] => None
  | RWWriteHeader status :: rest =>
      match last_header rest with
      | Some s => Some s
      | None => Some status
      end
  | RWWrite _ :: rest => last_header rest
  end.

(** No body before a header, and only statuses from 100 to 511. *)
Definition well_ordered (calls : list rw_call) : Prop :=
  match calls with
  | RWWrite _ :: _ => False
  | _ => True
  end
  ∧ Forall (λ call, match call with
                    | RWWriteHeader status => 100 <= status < 512
                    | RWWrite _ => True
                    end) calls.

(** What every call on the response writer keeps. *)
Definition rw_inv {V} (c : Context V) : Prop :=
  well_ordered (ctx_forwarded c)
  ∧ Status c = default 0 (last_header (ctx_forwarded c))
  ∧ (Written c = true <-> ctx_forwarded c ≠ []).

(** The tunnel [t] is past its join and its write loop is over; [taken]
    are the frames the loop took out, [waiting] frames still in the
    mailbox. *)
Definition writer_dead (w : world) (t : tid) (taken waiting : list bytes) : Prop :=
  ∃ tn, heap w !! t = Some tn
        ∧ writer tn = WDone ∧ serve tn ≠ SJoin
        ∧ dequeued t (trace w) = taken
        ∧ waiting `prefix_of` buf (message tn).

(** [reloaded], then the write of the reload frame fails: the write loop
    of tunnel 0 breaks and closes the connection. *)
Definition write_failed : world :=
  @writer_message json_plain 0 (@reload_frame json_plain "/static/site.css") false reloaded.

(** [write_failed], then one [Alert] taken by the hub and fanned out. *)
Definition write_failed_alerted : world :=
  let frame := @alert_frame json_plain "Saved" in
  hub_pass 2 (hub_broadcast 0 frame [0%nat] (@Alert json_plain "Saved" write_failed)).

(** ** template/loader.go: [page.ancestors]

    The loop reads the page, looks for the first [extends] tag, puts the
    named base in front of [names] and goes on with the base.  The files
    under the loader's root and [regexExtends] are outside of this
    development: [ReadFile name] is what [ioutil.ReadFile(path.Join(root,
    name))] returns during the call ([None] for an error), [FindExtends]
    the first capture of [regexExtends.FindSubmatch] ([None] for no
    match).  [log.Fatalf] ends the process. *)
Inductive fatal : Type :=
  | FailedToOpen (name : string)
  | ExtendsItself (name : string).

Section Ancestors.
Variable ReadFile : string -> option bytes.
Variable FindExtends : bytes -> option string.

(** [None]: the loop is still running when the fuel is used up. *)
Fixpoint ancestors_loop (fuel : nat) (name : string) (names : list string)
    : option (fatal + list string) :=
  match fuel with
  | O => None
  | S fuel =>
      match ReadFile name with
      | None => Some (inl (FailedToOpen name))
      | Some bits =>
          match FindExtends bits with
          | None => Some (inr names)
          | Some base =>
              if String.eqb base name then Some (inl (ExtendsItself name))
              else ancestors_loop fuel base (base :: names)
          end
      end
  end.

Definition ancestors (fuel : nat) (Name : string) : option (fatal + list string) :=
  ancestors_loop fuel Name [Name].

(** The [extends] tag of a page: [None] when the page cannot be read,
    [Some None] when it has no tag. *)
Definition extends (name : string) : option (option string) :=
  FindExtends <$> ReadFile name.

(** [names] runs from a page without [extends] tag down to [Name], each
    page extending the one before it, which is another page. *)
Definition lineage (Name : string) (names : list string) : Prop :=
  (∃ root, head names = Some root ∧ extends root = Some None)
  ∧ last names = Some Name
  ∧ ∀ i base name, names !! i = Some base -> names !! S i = Some name ->
      extends name = Some (Some base) ∧ base ≠ name.

(** A set of pages closed under [extends], none of them extending
    itself, none of them without a tag. *)
Definition extends_closed (P : string -> Prop) : Prop :=
  ∀ name, P name -> ∃ base, extends name = Some (Some base) ∧ base ≠ name ∧ P base.

End Ancestors.

(** Two templates that extend each other. *)
Definition extends_tag (base : string) : bytes :=
  list_ascii_of_string ("{% extends " ++ String quote (base ++ String quote " %}")).

Definition two_files (name : string) : option bytes :=
  if String.eqb name "a.html" then Some (extends_tag "b.html")
  else if String.eqb name "b.html" then Some (extends_tag "a.html")
  else None.

(** A layout and a page that extends it. *)
Definition site_files (name : string) : option bytes :=
  if String.eqb name "index.html" then Some (extends_tag "layout.html")
  else if String.eqb name "layout.html" then Some (list_ascii_of_string "<html></html>")
  else None.

(** A stand-in for [regexExtends] on files that hold nothing but one
    tag written by [extends_tag]: the name between the two quotes. *)
Fixpoint until_quote (b : bytes) : option bytes :=
  match b with
  | [] => None
  | c :: rest =>
      if Ascii.eqb c quote then Some []
      else cons c <$> until_quote rest
  end.

Definition find_tag (b : bytes) : option string :=
  if HasPrefix b (list_ascii_of_string "{% extends ")
  then string_of_list_ascii <$> until_quote (drop 12 b)
  else None.

(** ** cmd/rex/run.go: [compressor.acceptEncodings]

    [regexAcceptEncoding.FindAllString] is outside of this development:
    [matches] is what it returns for the request's [Accept-Encoding]. *)
Module Strings.

(** [strings.SplitN(s, ";", 2)]: one unit when [s] has no [;], else
    what is before the first [;] and what is after it. *)
Fixpoint SplitN (s : string) : string * option string :=
  match s with
  | EmptyString => (EmptyString, None)
  | String c rest =>
      if Ascii.eqb c ";" then (EmptyString, Some rest)
      else let '(unit, more) := SplitN rest in (String c unit, more)
  end.

Definition HasPrefix (s prefix : string) : bool := String.prefix prefix s.

Fixpoint HasSuffix (s suffix : string) : bool :=
  String.eqb s suffix
  || match s with
     | EmptyString => false
     | String _ rest => HasSuffix rest suffix
     end.

End Strings.

(** One turn of the loop over [matches]. *)
Definition acceptEncodings_item (encodings : list string) (item : string) : list string :=
  match Strings.SplitN item with
  | (unit0, None) => encodings ++ [unit0]
  | (unit0, Some unit1) =>
      if Strings.HasPrefix unit1 "q=1" then unit0 :: encodings
      else if Strings.HasSuffix unit1 "0" then encodings
      else encodings ++ [unit0]
  end.

Definition acceptEncodings (matches : list string) : list string :=
  fold_left acceptEncodings_item matches [].

(** How the loop treats an item. *)
Inductive rank : Type := First | Dropped | Behind.

Definition rank_of (item : string) : rank :=
  match Strings.SplitN item with
  | (_, None) => Behind
  | (_, Some unit1) =>
      if Strings.HasPrefix unit1 "q=1" then First
      else if Strings.HasSuffix unit1 "0" then Dropped
      else Behind
  end.

Definition coding (item : string) : string := (Strings.SplitN item).1.

Definition is_first (item : string) : bool :=
  match rank_of item with First => true | _ => false end.

Definition is_behind (item : string) : bool :=
  match rank_of item with Behind => true | _ => false end.

(* ===================================================================== *)
(** * Part II. Theorems *)
(* ===================================================================== *)

(** ** base64: decoding undoes encoding *)

Lemma land_shiftl_small a b k :
  0 <= k -> 0 <= b < 2 ^ k -> Z.land (Z.shiftl a k) b = 0.
Proof.
  intros Hk Hb. apply Z.bits_inj'. intros n Hn.
  rewrite Z.land_spec, Z.bits_0.
  destruct (Z.lt_ge_cases n k) as [Hlt|Hge].
  - rewrite Z.shiftl_spec_low by lia. reflexivity.
  - rewrite <- (Z.mod_small b (2 ^ k)) by lia.
    rewrite Z.mod_pow2_bits_high by lia. apply andb_false_r.
Qed.

Lemma lor_shiftl_small a b k :
  0 <= k -> 0 <= b < 2 ^ k -> Z.lor (Z.shiftl a k) b = a * 2 ^ k + b.
Proof.
  intros Hk Hb.
  rewrite <- Z.lxor_lor, <- Z.add_nocarry_lxor, Z.shiftl_mul_pow2
    by (lia || apply land_shiftl_small; lia).
  reflexivity.
Qed.

Lemma uint_range b : 0 <= base64.uint b < 256.
Proof.
  unfold base64.uint. pose proof (N_ascii_bounded b). lia.
Qed.

Lemma byte_uint b : base64.byte (base64.uint b) = b.
Proof.
  unfold base64.byte. change 255 with (Z.ones 8).
  rewrite Z.land_ones by lia. rewrite Z.mod_small by apply uint_range.
  unfold base64.uint. rewrite N2Z.id. apply ascii_N_embedding.
Qed.

Lemma quantum3 b0 b1 b2 :
  0 <= b0 < 256 -> 0 <= b1 < 256 -> 0 <= b2 < 256 ->
  let val := Z.lor (Z.lor (Z.shiftl b0 16) (Z.shiftl b1 8)) b2 in
  val = b0 * 65536 + b1 * 256 + b2.
Proof.
  intros H0 H1 H2 val. subst val.
  replace (Z.shiftl b0 16) with (Z.shiftl (b0 * 256) 8).
  2:{ rewrite !Z.shiftl_mul_pow2 by lia. lia. }
  rewrite <- Z.shiftl_lor.
  rewrite (lor_shiftl_small _ b2 8) by lia.
  replace (b0 * 256) with (Z.shiftl b0 8) by (rewrite Z.shiftl_mul_pow2; lia).
  rewrite (lor_shiftl_small _ b1 8) by lia. lia.
Qed.

Lemma sextet_spec v k : 0 <= k -> Z.land (Z.shiftr v k) 63 = (v / 2 ^ k) mod 64.
Proof.
  intros Hk. change 63 with (Z.ones 6).
  rewrite Z.land_ones, Z.shiftr_div_pow2 by lia. reflexivity.
Qed.

Lemma sextet_range v k : 0 <= k -> 0 <= Z.land (Z.shiftr v k) 63 < 64.
Proof. intros Hk. rewrite sextet_spec by lia. apply Z.mod_pos_bound. lia. Qed.

Lemma low_sextet_spec v : Z.land v 63 = v mod 64.
Proof. change 63 with (Z.ones 6). now rewrite Z.land_ones by lia. Qed.

Lemma low_sextet_range v : 0 <= Z.land v 63 < 64.
Proof. rewrite low_sextet_spec. apply Z.mod_pos_bound. lia. Qed.

Lemma quantum4 d0 d1 d2 d3 :
  0 <= d0 < 64 -> 0 <= d1 < 64 -> 0 <= d2 < 64 -> 0 <= d3 < 64 ->
  Z.lor (Z.lor (Z.lor (Z.shiftl d0 18) (Z.shiftl d1 12)) (Z.shiftl d2 6)) d3
  = d0 * 262144 + d1 * 4096 + d2 * 64 + d3.
Proof.
  intros H0 H1 H2 H3.
  replace (Z.shiftl d0 18) with (Z.shiftl (Z.shiftl (Z.shiftl d0 6) 6) 6)
    by (rewrite !Z.shiftl_shiftl by lia; reflexivity).
  replace (Z.shiftl d1 12) with (Z.shiftl (Z.shiftl d1 6) 6)
    by (rewrite !Z.shiftl_shiftl by lia; reflexivity).
  rewrite <- !Z.shiftl_lor.
  rewrite (lor_shiftl_small d0 d1 6) by lia.
  rewrite (lor_shiftl_small _ d2 6) by lia.
  rewrite (lor_shiftl_small _ d3 6) by lia. lia.
Qed.

Lemma byte_spec v k : 0 <= k -> Z.land (Z.shiftr v k) 255 = (v / 2 ^ k) mod 256.
Proof.
  intros Hk. change 255 with (Z.ones 8).
  rewrite Z.land_ones, Z.shiftr_div_pow2 by lia. reflexivity.
Qed.

Lemma decodeMap_encode v : 0 <= v < 64 -> base64.decodeMap (base64.encode v) = v.
Proof.
  intros Hv.
  assert (Hall : forallb (fun n => base64.decodeMap (base64.encode (Z.of_nat n)) =? Z.of_nat n)
                   (seq 0 64) = true) by (vm_compute; reflexivity).
  rewrite forallb_forall in Hall.
  specialize (Hall (Z.to_nat v)). rewrite Z2Nat.id in Hall by lia.
  apply Z.eqb_eq, Hall, in_seq. lia.
Qed.

Lemma list_ind3 {A} (P : list A -> Prop) :
  P [] -> (forall a, P [a]) -> (forall a b, P [a; b]) ->
  (forall a b c l, P l -> P (a :: b :: c :: l)) ->
  forall l, P l.
Proof.
  intros H0 H1 H2 H3.
  assert (Hall : forall l, P l /\ (forall a, P (a :: l)) /\ (forall a b, P (a :: b :: l))).
  { induction l as [|x l (IH0 & IH1 & IH2)]; [auto|].
    split; [apply IH1|]. split; [intros a; apply IH2|]. intros a b. apply H3, IH0. }
  intros l. apply Hall.
Qed.

Lemma Decode_symbol v rest dbuf :
  0 <= v < 64 ->
  base64.Decode (base64.encode v :: rest) dbuf =
    if (length (dbuf ++ [v]) =? 4)%nat
    then let '(bs, err) := base64.Decode rest [] in
         (base64.assemble (dbuf ++ [v]) 4 ++ bs, err)
    else base64.Decode rest (dbuf ++ [v]).
Proof.
  intros Hv. cbn [base64.Decode]. rewrite decodeMap_encode by lia.
  destruct (Z.eqb_spec v 255) as [->|_]; [lia|]. reflexivity.
Qed.


Lemma byte_eq v b : Z.land v 255 = base64.uint b -> base64.byte v = b.
Proof.
  intros Hv. unfold base64.byte. rewrite Hv.
  unfold base64.uint. rewrite N2Z.id. apply ascii_N_embedding.
Qed.

Ltac quantum_arith :=
  rewrite ?Z.shiftr_0_r;
  change 255 with (Z.ones 8);
  rewrite ?Z.land_ones, ?Z.shiftr_div_pow2 by lia;
  change (2 ^ 8) with 256; change (2 ^ 16) with 65536;
  change (2 ^ 6) with 64; change (2 ^ 12) with 4096;
  change (2 ^ 18) with 262144;
  Z.div_mod_to_equations; lia.

Lemma assemble1 b0 :
  let val := Z.shiftl (base64.uint b0) 16 in
  base64.assemble
    [Z.land (Z.shiftr val 18) 63; Z.land (Z.shiftr val 12) 63] 2 = [b0].
Proof.
  intros val. pose proof (uint_range b0) as R0.
  unfold base64.assemble. cbn [nth Nat.sub take].
  rewrite quantum4 by (try apply sextet_range; lia).
  f_equal. apply byte_eq. rewrite !sextet_spec by lia. subst val.
  rewrite Z.shiftl_mul_pow2 by lia.
  generalize dependent (base64.uint b0). intros x Hx. quantum_arith.
Qed.

Lemma assemble2 b0 b1 :
  let val := Z.lor (Z.shiftl (base64.uint b0) 16) (Z.shiftl (base64.uint b1) 8) in
  base64.assemble
    [Z.land (Z.shiftr val 18) 63; Z.land (Z.shiftr val 12) 63;
     Z.land (Z.shiftr val 6) 63] 3 = [b0; b1].
Proof.
  intros val. pose proof (uint_range b0) as R0. pose proof (uint_range b1) as R1.
  assert (Hval : val = base64.uint b0 * 65536 + base64.uint b1 * 256 + 0).
  { subst val. rewrite <- (quantum3 _ _ 0) by lia. cbn zeta. now rewrite Z.lor_0_r. }
  unfold base64.assemble. cbn [nth Nat.sub take].
  rewrite quantum4 by (try apply sextet_range; lia).
  rewrite !sextet_spec by lia. rewrite Hval. clear Hval val.
  f_equal; [|f_equal]; apply byte_eq.
  all: generalize dependent (base64.uint b0); intros x Hx.
  all: generalize dependent (base64.uint b1); intros y Hy.
  all: quantum_arith.
Qed.

Lemma assemble3 b0 b1 b2 :
  let val := Z.lor (Z.lor (Z.shiftl (base64.uint b0) 16) (Z.shiftl (base64.uint b1) 8))
                   (base64.uint b2) in
  base64.assemble
    [Z.land (Z.shiftr val 18) 63; Z.land (Z.shiftr val 12) 63;
     Z.land (Z.shiftr val 6) 63; Z.land val 63] 4 = [b0; b1; b2].
Proof.
  intros val. pose proof (uint_range b0) as R0. pose proof (uint_range b1) as R1.
  pose proof (uint_range b2) as R2.
  assert (Hval : val = base64.uint b0 * 65536 + base64.uint b1 * 256 + base64.uint b2).
  { subst val. now rewrite <- quantum3 by lia. }
  unfold base64.assemble. cbn [nth Nat.sub take].
  rewrite quantum4
    by (first [apply sextet_range; lia | apply low_sextet_range]).
  rewrite !sextet_spec, !low_sextet_spec by lia. rewrite Hval. clear Hval val.
  f_equal; [|f_equal; [|f_equal]]; apply byte_eq.
  all: generalize dependent (base64.uint b0); intros x Hx.
  all: generalize dependent (base64.uint b1); intros y Hy.
  all: generalize dependent (base64.uint b2); intros z Hz.
  all: quantum_arith.
Qed.

Lemma Decode_Encode src : base64.Decode (base64.Encode src) [] = (src, None).
Proof.
  induction src as [|b0|b0 b1|b0 b1 b2 rest IH] using list_ind3.
  - reflexivity.
  - cbn [base64.Encode].
    rewrite !Decode_symbol by (apply sextet_range; lia). cbn [length app Nat.eqb].
    cbn [base64.Decode]. cbn [length app].
    change (base64.decodeMap base64.padChar) with 255.
    cbn. unfold base64.finish. cbn [base64.skip_newlines].
    now rewrite (assemble1 b0).
  - cbn [base64.Encode].
    rewrite !Decode_symbol by (apply sextet_range; lia). cbn [length app Nat.eqb].
    cbn [base64.Decode]. cbn [length app].
    change (base64.decodeMap base64.padChar) with 255.
    cbn. unfold base64.finish. cbn [base64.skip_newlines].
    now rewrite (assemble2 b0 b1).
  - cbn [base64.Encode].
    rewrite (Decode_symbol _ _ []) by (apply sextet_range; lia). cbn [length app Nat.eqb].
    rewrite (Decode_symbol _ _ [_]) by (apply sextet_range; lia). cbn [length app Nat.eqb].
    rewrite (Decode_symbol _ _ [_; _]) by (apply sextet_range; lia). cbn [length app Nat.eqb].
    rewrite (Decode_symbol _ _ [_; _; _]) by apply low_sextet_range.
    cbn [length app Nat.eqb]. rewrite IH.
    now rewrite (assemble3 b0 b1 b2).
Qed.


(** ** utils.go *)

(** An input that is not base64 and an input that is base64 but not a
    value of the codec: both decodings fail, and both calls return [nil]
    with the target untouched. *)
Example Deserialize_bad_base64 :
  (base64.DecodeString "AQ=").2 = Some CorruptInputError
  /\ Deserialize "AQ=" false = (false, None).
Proof. split; reflexivity. Qed.

Example Deserialize_bad_gob :
  base64.DecodeString "QUJD" = (list_ascii_of_string "ABC", None)
  /\ (gob_Decode (list_ascii_of_string "ABC") false).2 = Some (GobError "unexpected EOF")
  /\ Deserialize "QUJD" false = (false, None).
Proof. repeat split; reflexivity. Qed.

(** C9. [Deserialize(value, object)] returns a nil error for every input
    string and every target object: the error of the base64 decoding and
    the error of the gob decoding both land in the [err] declared by the
    [if], never in the result, so no decoding failure reaches the caller. *)
Theorem Deserialize_returns_nil (T : Type) (G : Gob T) (value : string) (object : T) :
  (Deserialize value object).2 = None.
Proof.
  unfold Deserialize.
  destruct (base64.DecodeString value) as [bits [e|]]; [reflexivity|].
  destruct (gob_Decode bits object) as [object' e']. reflexivity.
Qed.


(** ** web/livereload.go: facts about the operations and invariants *)

(** Case analysis on a step, with names. *)
Ltac step_cases Hstep :=
  destruct Hstep as
    [ w Hhub | w message Halive | w path Halive | w upgrade Halive
    | w t tn Hhub Ht Hserve | w t tn p Hhub Ht Hserve
    | w i m order Hhub Hi Hperm | w m todo Hhub
    | w t tn msg Halive Ht Hserve Hws | w t tn Halive Ht Hserve
    | w t tn b Halive Ht Hserve Hcan
    | w t tn msg rest ok Halive Ht Hwriter Hbuf Hok
    | w t tn Halive Ht Hwriter Hbuf Hclosed ].

Section HubFacts.
Context `{JSON}.

Lemma Alert_unfold message w :
  Alert message w = set_senders (senders w ++ [alert_frame message]) w.
Proof.
  unfold Alert, alert_frame. now destruct (json_Marshal _).
Qed.

Lemma Reload_unfold path w :
  Reload path w = set_senders (senders w ++ [reload_frame path]) w.
Proof.
  unfold Reload, reload_frame. now destruct (json_Marshal _).
Qed.

Lemma hub_visit_room m t todo w tn :
  is_Some (tunnels w !! t) ->
  heap w !! t = Some tn -> closed (message tn) = false ->
  chan_full (message tn) = false ->
  hub_visit m t todo w =
    set_hub (HRange m todo)
      (log (EvEnqueue Hub t m) (set_heap (<[t := deliver m tn]> (heap w)) w)).
Proof.
  intros [b Hb] Hheap Hopen Hroom. unfold hub_visit.
  now rewrite Hb, Hheap, Hopen, Hroom.
Qed.


Lemma tunnels_all_heap P w w' :
  heap w' = heap w -> tunnels_all P w -> tunnels_all P w'.
Proof. unfold tunnels_all. intros ->. done. Qed.

Lemma tunnels_all_alter P f t w w' :
  (forall tn, P tn -> P (f tn)) ->
  heap w' = alter f t (heap w) ->
  tunnels_all P w -> tunnels_all P w'.
Proof.
  intros Hf Hw' Hall t' tn'. rewrite Hw', lookup_alter.
  case_decide as Heq.
  - subst t'. destruct (heap w !! t) as [tn|] eqn:Ht; [|done].
    intros [= <-]. eauto.
  - apply Hall.
Qed.

Lemma tunnels_all_insert P t tn w w' :
  P tn -> heap w' = <[t := tn]> (heap w) ->
  tunnels_all P w -> tunnels_all P w'.
Proof.
  intros Hp Hw' Hall t' tn'. rewrite Hw', lookup_insert.
  case_decide as Heq; [by intros [= <-] | apply Hall].
Qed.

Lemma Lock_defer_Unlock_heap w w' :
  Lock_defer_Unlock w = Some w' ->
  heap w' = heap w ∧ tunnels w' = tunnels w ∧ hub w' = hub w
  ∧ senders w' = senders w ∧ trace w' = trace w
  ∧ mutex w = false ∧ mutex w' = true.
Proof.
  unfold Lock_defer_Unlock. destruct (mutex w) eqn:Hm; [done|].
  intros [= <-]. done.
Qed.

Lemma joined_means_locked w t tn :
  lock_free_means_fresh w -> heap w !! t = Some tn ->
  serve tn ≠ SJoin ∨ writer tn ≠ WNone ->
  mutex w = true.
Proof.
  intros Hf Ht Hs. destruct (mutex w) eqn:Hm; [done|].
  destruct (Hf Hm) as [_ Hall]. apply Hall in Ht as [? ?]. by destruct Hs.
Qed.

Lemma registered_means_locked w t :
  lock_free_means_fresh w -> is_Some (tunnels w !! t) -> mutex w = true.
Proof.
  intros Hf [b Hb]. destruct (mutex w) eqn:Hm; [done|].
  destruct (Hf Hm) as [He _]. by rewrite He, lookup_empty in Hb.
Qed.

Lemma Lock_defer_Unlock_held w :
  mutex w = true -> Lock_defer_Unlock w = None.
Proof. unfold Lock_defer_Unlock. by intros ->. Qed.

Lemma hub_close_stable P t w :
  stable_close P -> tunnels_all P w -> tunnels_all P (hub_close t w).
Proof.
  intros HP Hall. unfold hub_close.
  destruct (heap w !! t) as [tn|] eqn:Ht; [|done].
  destruct (closed (message tn)); [exact Hall|].
  eapply tunnels_all_insert; [|reflexivity|exact Hall].
  apply HP. eauto.
Qed.

Lemma stable_step P w w' :
  stable P -> stable_close P ∨ lock_free_means_fresh w ->
  step w w' -> tunnels_all P w -> tunnels_all P w'.
Proof.
  intros [Knew Kws Ksv Kwr Kpush Kpop] Hclose Hstep Hall.
  step_cases Hstep.
  - exact Hall.
  - rewrite Alert_unfold. exact Hall.
  - rewrite Reload_unfold. exact Hall.
  - destruct upgrade; [exact Hall|].
    eapply tunnels_all_insert; [|reflexivity|exact Hall]. exact Knew.
  - unfold hub_join.
    match goal with |- context [Lock_defer_Unlock ?w1] =>
      assert (Hall1 : tunnels_all P w1) end.
    { eapply tunnels_all_alter; [|reflexivity|exact Hall].
      intros tn0 Hp. by apply Kwr, Ksv. }
    destruct (Lock_defer_Unlock _) as [w2|] eqn:Hl; [|exact Hall1].
    apply Lock_defer_Unlock_heap in Hl as (Hh & _).
    eapply tunnels_all_heap; [|exact Hall1]. exact Hh.
  - unfold hub_leave.
    match goal with |- context [Lock_defer_Unlock ?w1] =>
      assert (Hall1 : tunnels_all P w1) end.
    { eapply tunnels_all_alter; [|reflexivity|exact Hall].
      intros tn0 Hp. by apply Ksv. }
    destruct (Lock_defer_Unlock _) as [w2|] eqn:Hl; [|exact Hall1].
    apply Lock_defer_Unlock_heap in Hl as (Hh & _ & _ & _ & _ & Hm & _).
    destruct Hclose as [Hclose|Hfresh].
    2:{ assert (mutex w = true); [|cbn in Hm; congruence].
        eapply joined_means_locked; eauto. left. congruence. }
    apply hub_close_stable; [done|].
    eapply tunnels_all_heap; [|exact Hall1]. exact Hh.
  - exact Hall.
  - unfold hub_range. rewrite Hhub. destruct todo as [|t todo]; [exact Hall|].
    unfold hub_visit.
    destruct (tunnels w !! t) eqn:Hreg; [|exact Hall].
    destruct (heap w !! t) as [tn|] eqn:Ht; [|exact Hall].
    destruct (closed (message tn)); [exact Hall|].
    destruct (chan_full (message tn)).
    + destruct (Lock_defer_Unlock _) as [w2|] eqn:Hl; [|exact Hall].
      apply Lock_defer_Unlock_heap in Hl as (Hh & _ & _ & _ & _ & Hm & _).
      destruct Hclose as [Hclose|Hfresh].
      2:{ assert (mutex w = true); [|congruence].
          eapply registered_means_locked; eauto. }
      eapply tunnels_all_heap; [reflexivity|].
      apply hub_close_stable; [done|].
      eapply tunnels_all_heap; [|exact Hall]. exact Hh.
    + eapply tunnels_all_insert; [|reflexivity|exact Hall]. apply Kpush. eauto.
  - unfold reader_message. destruct (Contains _ _); [|exact Hall].
    eapply tunnels_all_alter; [|reflexivity|exact Hall].
    intros tn0 Hp. apply Ksv; [|done]. by intros b [= <-].
  - eapply tunnels_all_alter; [|reflexivity|exact Hall].
    intros tn0 Hp. by apply Ksv, Kws.
  - unfold reader_send. rewrite Ht.
    destruct (closed (message tn)).
    + eapply tunnels_all_insert; [|reflexivity|exact Hall]. apply Ksv; eauto. done.
    + eapply tunnels_all_insert; [|reflexivity|exact Hall].
      apply Ksv; [done|]. apply Kpush. eauto.
  - unfold writer_message.
    match goal with |- context [log ?e ?w0] =>
      assert (Hall1 : tunnels_all P (log e w0)) end.
    { eapply tunnels_all_alter; [|reflexivity|exact Hall].
      intros tn0 Hp. by apply Kpop. }
    destruct ok.
    + destruct (Contains _ _); [|exact Hall1]. rewrite Alert_unfold. exact Hall1.
    + eapply tunnels_all_alter; [|reflexivity|exact Hall1].
      intros tn0 Hp. by apply Kwr, Kws.
  - eapply tunnels_all_alter; [|reflexivity|exact Hall].
    intros tn0 Hp. by apply Kwr, Kws.
Qed.

Lemma stable_reachable P w :
  stable P -> stable_close P -> reachable w -> tunnels_all P w.
Proof.
  intros HP HC. induction 1 as [|w w' _ IH Hstep].
  - intros t tn. cbn. by rewrite lookup_empty.
  - eauto using stable_step.
Qed.

Lemma capacity_is_256 w t tn :
  reachable w -> heap w !! t = Some tn -> cap (message tn) = 256%nat.
Proof.
  intros Hr. revert t tn.
  apply (stable_reachable (λ tn, cap (message tn) = 256%nat)); [| |done].
  - split; intros; done.
  - intros tn; done.
Qed.

Lemma stable_open : stable (λ tn, closed (message tn) = false).
Proof. split; intros; done. Qed.

Lemma hub_join_locked t w :
  mutex w = true ->
  hub_join t w =
    set_hub HLockWait
      (set_heap (alter (λ tn, set_writer WRange (set_serve SRead tn)) t (heap w)) w).
Proof. intros Hm. unfold hub_join. by rewrite Lock_defer_Unlock_held. Qed.

Lemma hub_join_free t w :
  mutex w = false ->
  hub_join t w =
    {| tunnels := <[t := true]> (tunnels w); mutex := true;
       deferred := S (deferred w); hub := hub w;
       heap := alter (λ tn, set_writer WRange (set_serve SRead tn)) t (heap w);
       senders := senders w; trace := trace w ++ [EvInsert t] |}.
Proof.
  intros Hm. unfold hub_join, Lock_defer_Unlock. cbn. by rewrite Hm.
Qed.

Lemma hub_leave_locked t w :
  mutex w = true ->
  hub_leave t w = set_hub HLockWait (set_heap (alter (set_serve SDone) t (heap w)) w).
Proof. intros Hm. unfold hub_leave. by rewrite Lock_defer_Unlock_held. Qed.

Lemma hub_leave_free t w :
  mutex w = false ->
  hub_leave t w =
    hub_close t
      {| tunnels := delete t (tunnels w); mutex := true;
         deferred := S (deferred w); hub := hub w;
         heap := alter (set_serve SDone) t (heap w);
         senders := senders w; trace := trace w ++ [EvDelete t] |}.
Proof.
  intros Hm. unfold hub_leave, Lock_defer_Unlock. cbn. by rewrite Hm.
Qed.

Lemma hub_visit_full_free m t todo w tn :
  is_Some (tunnels w !! t) -> heap w !! t = Some tn ->
  closed (message tn) = false -> chan_full (message tn) = true ->
  mutex w = false ->
  hub_visit m t todo w =
    set_hub (HRange m todo)
      (hub_close t
         {| tunnels := delete t (tunnels w); mutex := true;
            deferred := S (deferred w); hub := hub w; heap := heap w;
            senders := senders w; trace := trace w ++ [EvDelete t] |}).
Proof.
  intros [b Hb] Ht Ho Hf Hm. unfold hub_visit, Lock_defer_Unlock.
  by rewrite Hb, Ht, Ho, Hf, Hm.
Qed.

Lemma hub_visit_closed m t todo w tn :
  is_Some (tunnels w !! t) -> heap w !! t = Some tn ->
  closed (message tn) = true ->
  hub_visit m t todo w = set_hub HPanic w.
Proof.
  intros [b Hb] Ht Ho. unfold hub_visit. by rewrite Hb, Ht, Ho.
Qed.

Lemma hub_visit_skip m t todo w :
  tunnels w !! t = None ∨ heap w !! t = None ->
  hub_visit m t todo w = set_hub (HRange m todo) w.
Proof.
  intros Hn. unfold hub_visit.
  destruct (tunnels w !! t), (heap w !! t); try done. by destruct Hn.
Qed.

Lemma reader_send_open t b w tn :
  heap w !! t = Some tn -> closed (message tn) = false ->
  reader_send t b w =
    log (EvEnqueue (Reader t) t b)
      (set_heap (<[t := set_serve SRead (deliver b tn)]> (heap w)) w).
Proof. intros Ht Ho. unfold reader_send. by rewrite Ht, Ho. Qed.

Lemma reader_message_hello t msg w :
  Contains msg command_hello = true ->
  reader_message t msg w =
    set_heap (alter (set_serve (SSend hello_reply)) t (heap w)) w.
Proof. intros Hc. unfold reader_message. by rewrite Hc. Qed.

Lemma hub_visit_full_locked m t todo w tn :
  is_Some (tunnels w !! t) -> heap w !! t = Some tn ->
  closed (message tn) = false -> chan_full (message tn) = true ->
  mutex w = true ->
  hub_visit m t todo w = set_hub HLockWait w.
Proof.
  intros [b Hb] Ht Ho Hf Hm. unfold hub_visit.
  by rewrite Hb, Ht, Ho, Hf, Lock_defer_Unlock_held.
Qed.

Ltac still_locked := let Hm := fresh in intros Hm; cbn in Hm; congruence.

Lemma lock_inv_step w w' : lock_inv w -> step w w' -> lock_inv w'.
Proof.
  intros [Ha Hf Ho Hs Hq] Hstep.
  assert (Ho' : tunnels_all (λ tn, closed (message tn) = false) w').
  { eapply stable_step; eauto using stable_open. }
  step_cases Hstep.
  - split; try done.
  - rewrite Alert_unfold in *. split; try done.
  - rewrite Reload_unfold in *. split; try done.
  - destruct upgrade; [split; done|]. split; try done.
    intros Hm. destruct (Hf Hm) as [He Hall]. split; [done|].
    eapply tunnels_all_insert; [|reflexivity|exact Hall]. done.
  - destruct (mutex w) eqn:Hm.
    + rewrite hub_join_locked in * by done. split; try done; try still_locked.
    + destruct (Hf Hm) as [He Hall].
      rewrite hub_join_free in * by done. split.
      * cbn. congruence.
      * still_locked.
      * done.
      * cbn. rewrite He. by rewrite insert_empty, map_size_singleton.
      * cbn. apply Forall_app. split; [done|]. by repeat constructor.
  - assert (Hm : mutex w = true).
    { eapply joined_means_locked; eauto. left. congruence. }
    rewrite hub_leave_locked in * by done. split; try done; try still_locked.
  - split; try done.
  - unfold hub_range in *. rewrite Hhub in *.
    destruct todo as [|t todo]; [split; done|].
    destruct (tunnels w !! t) as [b|] eqn:Hb.
    2:{ unfold hub_visit in *. rewrite Hb in *. split; done. }
    assert (Hm : mutex w = true) by (eapply registered_means_locked; eauto).
    destruct (heap w !! t) as [tn|] eqn:Ht.
    2:{ unfold hub_visit in *. rewrite Hb, Ht in *. split; try done; try still_locked. }
    pose proof (Ho _ _ Ht) as Hopen. cbn in Hopen.
    destruct (chan_full (message tn)) eqn:Hfull.
    + rewrite (hub_visit_full_locked m t todo w tn) in * by eauto.
      split; try done; try still_locked.
    + rewrite (hub_visit_room m t todo w tn) in * by eauto.
      split; try done; try still_locked.
      cbn. apply Forall_app. split; [done|]. by repeat constructor.
  - assert (Hm : mutex w = true).
    { eapply joined_means_locked; eauto. left. congruence. }
    unfold reader_message in *. destruct (Contains _ _); split; try done; try still_locked.
  - assert (Hm : mutex w = true).
    { eapply joined_means_locked; eauto. left. congruence. }
    split; try done; try still_locked.
  - assert (Hm : mutex w = true).
    { eapply joined_means_locked; eauto. left. congruence. }
    unfold reader_send in *. rewrite Ht in *.
    rewrite (Ho _ _ Ht) in *. split; try done; try still_locked.
    cbn. apply Forall_app. split; [done|]. by repeat constructor.
  - assert (Hm : mutex w = true).
    { eapply joined_means_locked; eauto. right. congruence. }
    assert (Hq' : Forall quiet (trace w ++ [EvDequeue t msg])).
    { apply Forall_app. split; [done|]. by repeat constructor. }
    unfold writer_message in *. destruct ok.
    + destruct (Contains _ _); [rewrite Alert_unfold in *|];
        (split; try done; try still_locked).
    + split; try done; try still_locked.
  - assert (Hm : mutex w = true).
    { eapply joined_means_locked; eauto. right. congruence. }
    split; try done; try still_locked.
Qed.

Lemma lock_inv_reachable w : reachable w -> lock_inv w.
Proof.
  induction 1 as [|w w' _ IH Hstep]; [|eauto using lock_inv_step].
  split.
  - done.
  - intros _. split; [done|]. intros t tn. cbn. by rewrite lookup_empty.
  - intros t tn. cbn. by rewrite lookup_empty.
  - cbn. rewrite map_size_empty. lia.
  - constructor.
Qed.

Lemma stable_send : stable (λ tn, forall b, serve tn = SSend b -> b = hello_reply).
Proof. split; cbn; intros; try done; eauto. Qed.

Lemma Forall_snoc {A} (P : A -> Prop) l x : Forall P l -> P x -> Forall P (l ++ [x]).
Proof. intros Hl Hx. apply Forall_app. split; [done|]. by constructor. Qed.

Lemma hub_close_frames t w :
  Forall emitted_ok (trace w) ->
  Forall emitted_ok (trace (hub_close t w))
  ∧ senders (hub_close t w) = senders w
  ∧ (forall m todo, hub (hub_close t w) = HRange m todo -> hub w = HRange m todo).
Proof.
  intros Htr. unfold hub_close.
  destruct (heap w !! t) as [tn|]; [|done].
  destruct (closed (message tn)); cbn; (split; [by apply Forall_snoc|done]).
Qed.

Lemma frames_inv_step w w' : frames_inv w -> step w w' -> frames_inv w'.
Proof.
  intros [Hsn Hrg Hsd Htr] Hstep.
  assert (Hsd' : tunnels_all (λ tn, forall b, serve tn = SSend b -> b = hello_reply) w').
  { eapply stable_step; eauto using stable_send. left. by intros tn. }
  step_cases Hstep.
  - split; try done.
  - rewrite Alert_unfold in *. split; try done.
    cbn. apply Forall_snoc; [done|]. left. eauto.
  - rewrite Reload_unfold in *. split; try done.
    cbn. apply Forall_snoc; [done|]. right. eauto.
  - destruct upgrade; split; done.
  - destruct (mutex w) eqn:Hm;
      [rewrite hub_join_locked in * by done | rewrite hub_join_free in * by done];
      (split; [done| |done|]); cbn; try congruence; try done.
    by apply Forall_snoc.
  - destruct (mutex w) eqn:Hm;
      [rewrite hub_leave_locked in * by done; split; done|].
    rewrite hub_leave_free in * by done.
    match goal with |- frames_inv (hub_close t ?w1) =>
      destruct (hub_close_frames t w1) as (Htr1 & Hsn1 & Hrg1) end.
    { cbn. by apply Forall_snoc. }
    split; try done.
    + by rewrite Hsn1.
    + intros m todo Hh. apply Hrg1 in Hh. cbn in Hh. congruence.
  - split; try done.
    + cbn. by apply Forall_delete.
    + cbn. intros m' todo [= <- _]. eapply Forall_lookup_1; eauto.
  - pose proof (Hrg _ _ Hhub) as Hm.
    unfold hub_range in *. rewrite Hhub in *.
    destruct todo as [|t todo]; [split; done|].
    destruct (tunnels w !! t) as [b|] eqn:Hb;
      [|rewrite hub_visit_skip in * by auto; split; try done; by intros ? ? [= <- _]].
    destruct (heap w !! t) as [tn|] eqn:Ht;
      [|rewrite hub_visit_skip in * by auto; split; try done; by intros ? ? [= <- _]].
    destruct (closed (message tn)) eqn:Hc;
      [rewrite (hub_visit_closed m t todo w tn) in * by eauto; split; done|].
    destruct (chan_full (message tn)) eqn:Hfull.
    + destruct (mutex w) eqn:Hmx;
        [rewrite (hub_visit_full_locked m t todo w tn) in * by eauto; split; done|].
      rewrite (hub_visit_full_free m t todo w tn) in * by eauto.
      match goal with |- frames_inv (set_hub _ (hub_close t ?w1)) =>
        destruct (hub_close_frames t w1) as (Htr1 & Hsn1 & Hrg1) end.
      { cbn. by apply Forall_snoc. }
      split; try done.
      * cbn. by rewrite Hsn1.
      * by intros ? ? [= <- _].
    + rewrite (hub_visit_room m t todo w tn) in * by eauto.
      split; try done.
      * by intros ? ? [= <- _].
      * cbn. by apply Forall_snoc.
  - unfold reader_message in *. destruct (Contains _ _); split; done.
  - split; done.
  - unfold reader_send in *. rewrite Ht in *.
    destruct (closed (message tn)); split; try done.
    cbn. apply Forall_snoc; [done|]. cbn. eapply Hsd; eauto.
  - unfold writer_message in *.
    assert (Htr1 : Forall emitted_ok (trace w ++ [EvDequeue t msg]))
      by by apply Forall_snoc.
    destruct ok; [destruct (Contains _ _)|]; rewrite ?Alert_unfold in *;
      split; try done.
    cbn. apply Forall_snoc; [done|]. left. eauto.
  - split; done.
Qed.

Lemma frames_inv_reachable w : reachable w -> frames_inv w.
Proof.
  induction 1 as [|w w' _ IH Hstep]; [|eauto using frames_inv_step].
  split.
  - constructor.
  - done.
  - intros t tn. cbn. by rewrite lookup_empty.
  - constructor.
Qed.

Lemma alert_frame_well_formed message : well_formed (alert_frame message).
Proof. eexists (FAlert _). split; [reflexivity|done]. Qed.

Lemma reload_frame_well_formed path : well_formed (reload_frame path).
Proof. eexists (FReload _). split; [reflexivity|done]. Qed.

Lemma hello_reply_well_formed : well_formed hello_reply.
Proof.
  unfold hello_reply.
  exists (FHello {| hello_Command := "hello";
                    hello_Protocols :=
                      ["http://livereload.com/protocols/official-7"%string];
                    hello_ServerName := "Rex#Livereload" |}).
  split; [|reflexivity]. by destruct (json_Marshal _).
Qed.

Lemma emitted_ok_well_formed who t m :
  emitted_ok (EvEnqueue who t m) -> well_formed m.
Proof.
  destruct who; cbn.
  - intros [[msg ->]|[p ->]];
      auto using alert_frame_well_formed, reload_frame_well_formed.
  - intros ->. apply hello_reply_well_formed.
  - done.
Qed.
End HubFacts.

(** ** web/livereload.go: the properties of the specification *)

Section Executions.
Context `{JSON}.

Lemma hub_pass_steps fuel : forall w, rtc step w (hub_pass fuel w).
Proof.
  induction fuel as [|fuel IH]; intros w; [apply rtc_refl|].
  cbn. destruct (hub w) as [| |m todo| |] eqn:Hhub; try apply rtc_refl.
  eapply rtc_l; [|apply IH]. eapply step_range; eauto.
Qed.

Lemma reachable_rtc w w' : reachable w -> rtc step w w' -> reachable w'.
Proof.
  intros Hw Hsteps. induction Hsteps; eauto using reachable_step.
Qed.

Lemma delete_last {A} (l : list A) (x : A) : delete (length l) (l ++ [x]) = l.
Proof. induction l as [|a l IH]; [done|]. simpl. by f_equal. Qed.

Lemma lookup_last {A} (l : list A) (x : A) : (l ++ [x]) !! length l = Some x.
Proof. by rewrite lookup_app_r, Nat.sub_diag by lia. Qed.

(** Once inside [Lock], the hub stays there, and the registry with it. *)
Lemma stuck_step w w' :
  hub w = HLockWait -> step w w' ->
  hub w' = HLockWait ∧ tunnels w' = tunnels w ∧ mutex w' = mutex w.
Proof.
  intros Hstuck Hstep. step_cases Hstep; try congruence;
    rewrite ?Alert_unfold, ?Reload_unfold; try done.
  - by destruct upgrade.
  - unfold reader_message. by destruct (Contains _ _).
  - unfold reader_send. rewrite Ht. by destruct (closed _).
  - unfold writer_message. destruct ok; [|done].
    destruct (Contains _ _); rewrite ?Alert_unfold; done.
Qed.

Lemma stuck_forever w w' :
  hub w = HLockWait -> rtc step w w' ->
  hub w' = HLockWait ∧ tunnels w' = tunnels w ∧ mutex w' = mutex w.
Proof.
  intros Hstuck Hsteps. induction Hsteps as [|w w1 w2 Hstep _ IH]; [done|].
  destruct (stuck_step _ _ Hstuck Hstep) as (Hh & Ht & Hm).
  destruct (IH Hh) as (? & ? & ?). repeat split; congruence.
Qed.

(** In no execution is a mailbox closed or a tunnel taken out of the
    registry: whoever is registered was inserted under the lock, the
    lock is never given back, and both [delete] and [close] sit behind
    a second [Lock]. *)
Lemma no_mailbox_is_ever_closed w t tn :
  reachable w -> heap w !! t = Some tn -> closed (message tn) = false.
Proof. intros Hw. by apply (inv_open w (lock_inv_reachable w Hw)). Qed.

Lemma no_tunnel_is_ever_removed w :
  reachable w -> Forall quiet (trace w) ∧ hub w ≠ HPanic.
Proof.
  intros Hw. destruct (lock_inv_reachable w Hw). done.
Qed.

Lemma at_most_one_tunnel_registered w :
  reachable w -> (size (tunnels w) ≤ 1)%nat.
Proof. intros Hw. by destruct (lock_inv_reachable w Hw). Qed.

End Executions.



(** The run of [after_leave] is an execution of the program. *)
Lemma joined_reachable `{JSON} : reachable joined.
Proof.
  unfold joined.
  eapply reachable_step; [eapply reachable_step; [eapply reachable_step|]|].
  - apply reachable_init.
  - by apply step_Start.
  - by apply (step_Serve _ None).
  - eapply (step_join _ 0%nat); reflexivity.
Qed.

Lemma after_leave_reachable `{JSON} : reachable after_leave.
Proof.
  unfold after_leave.
  eapply reachable_step; [eapply reachable_step; [apply joined_reachable|]|].
  - eapply (step_reader_error _ 0%nat); [done|reflexivity|reflexivity].
  - eapply (step_leave _ 0%nat _ false); reflexivity.
Qed.

(** C2 (the code departs from it).  One browser connects and goes away.
    The hub took the lock when it stored the tunnel and deferred the
    unlock to the return of a function that never returns; on the leave
    it asks for the lock again and stays there.  From then on, in every
    continuation, the hub is inside [Lock], tunnel 0 is still registered,
    its mailbox is still open, and no [delete] or [close] has been
    executed: the mailbox of a tunnel that left is closed zero times, not
    once. *)
Theorem leave_never_closes_the_mailbox `{JSON} :
  reachable after_leave
  ∧ (serve <$> heap after_leave !! 0%nat) = Some SDone
  ∧ hub after_leave = HLockWait
  ∧ (forall w', rtc step after_leave w' ->
       hub w' = HLockWait
       ∧ tunnels w' !! 0%nat = Some true
       ∧ (forall tn, heap w' !! 0%nat = Some tn -> closed (message tn) = false)
       ∧ Forall quiet (trace w')).
Proof.
  split; [apply after_leave_reachable|]. split; [reflexivity|].
  split; [reflexivity|]. intros w' Hsteps.
  destruct (stuck_forever after_leave w' eq_refl Hsteps) as (Hh & Ht & _).
  assert (Hw' : reachable w') by eauto using reachable_rtc, after_leave_reachable.
  repeat split.
  - exact Hh.
  - rewrite Ht. reflexivity.
  - intros tn Htn. eapply no_mailbox_is_ever_closed; eauto.
  - by apply no_tunnel_is_ever_removed.
Qed.


(** What a full mailbox looks like in an execution.  After 256 unanswered
    handshakes the mailbox of tunnel 0 holds 256 replies; the lock is
    held since the join. *)
Lemma flood_reachable (n : nat) :
  (n ≤ 256)%nat ->
  @reachable json_plain (flood n)
  ∧ hub (flood n) = HSelect
  ∧ tunnels (flood n) = tunnels joined
  ∧ mutex (flood n) = true
  ∧ senders (flood n) = []
  ∧ heap (flood n) =
      <[0%nat := {| ws_closed := false;
                    message := {| buf := replicate n (@hello_reply json_plain);
                                  cap := 256; closed := false |};
                    serve := SRead; writer := WRange |}]> ∅.
Proof.
  set (hr := @hello_reply json_plain).
  induction n as [|n IH]; intros Hn.
  - split; [apply joined_reachable|]. repeat split; reflexivity.
  - destruct IH as (Hr & Hh & Ht & Hm & Hs & Hheap); [lia|].
    set (tn := {| ws_closed := false;
                  message := {| buf := replicate n hr; cap := 256; closed := false |};
                  serve := SRead; writer := WRange |}) in *.
    set (tn1 := set_serve (SSend hr) tn).
    assert (Hl : heap (flood n) !! 0%nat = Some tn)
      by (rewrite Hheap; apply lookup_insert_eq).
    set (w1 := @reader_message json_plain 0 client_hello (flood n)).
    assert (Hw1 : w1 = set_heap (<[0%nat := tn1]> ∅) (flood n)).
    { subst w1. rewrite reader_message_hello by reflexivity.
      by rewrite Hheap, alter_insert_eq. }
    assert (Hr1 : @reachable json_plain w1).
    { eapply reachable_step; [exact Hr|].
      eapply (step_reader_message _ 0%nat tn); try done. congruence. }
    assert (Hroom : chan_full (message tn1) = false).
    { change (chan_full (message tn1)) with (256 <=? length (replicate n hr))%nat.
      rewrite length_replicate. apply Nat.leb_gt. lia. }
    assert (Hl1 : heap w1 !! 0%nat = Some tn1)
      by (rewrite Hw1; apply lookup_insert_eq).
    change (flood (S n)) with (reader_send 0 hr w1).
    split.
    { eapply reachable_step; [exact Hr1|].
      eapply (step_reader_send _ 0%nat tn1); [|exact Hl1|reflexivity|by right].
      rewrite Hw1. change (hub (flood n) ≠ HPanic). congruence. }
    rewrite (reader_send_open 0%nat hr w1 tn1 Hl1 eq_refl).
    rewrite Hw1.
    split; [exact Hh|]. split; [exact Ht|]. split; [exact Hm|]. split; [exact Hs|].
    change (<[0%nat := set_serve SRead (deliver hr tn1)]>
              (<[0%nat := tn1]> (∅ : gmap tid tunnel)) =
            <[0%nat := {| ws_closed := false;
                          message := {| buf := replicate (S n) hr;
                                        cap := 256; closed := false |};
                          serve := SRead; writer := WRange |}]> ∅).
    rewrite insert_insert_eq, replicate_S_end. done.
Qed.

(** Then a broadcast arrives.  The pass reaches tunnel 0, finds no room
    and asks for the lock, which the join still holds: the hub stays
    inside [Lock], the tunnel is still registered, its mailbox is still
    open, and the run up to there is an execution of the program. *)
Example overflow_blocks_the_hub :
  @reachable json_plain flooded_broadcast
  ∧ hub flooded_broadcast = HLockWait
  ∧ tunnels flooded_broadcast !! 0%nat = Some true
  ∧ ((closed ∘ message) <$> heap flooded_broadcast !! 0%nat) = Some false
  ∧ ((length ∘ buf ∘ message) <$> heap flooded_broadcast !! 0%nat) = Some 256%nat
  ∧ Forall quiet (trace flooded_broadcast).
Proof.
  destruct (flood_reachable 256) as (Hr & Hh & Ht & Hm & Hs & Hheap); [lia|].
  unfold flooded_broadcast.
  set (hr := @hello_reply json_plain) in *.
  set (m := @alert_frame json_plain "Connected").
  generalize dependent (flood 256). intros w Hr Hh Ht Hm Hs Hheap.
  rewrite Alert_unfold. fold m.
  set (wa := set_senders (senders w ++ [m]) w).
  set (wb := hub_broadcast 0 m [0%nat] wa).
  assert (Hstep1 : @step json_plain w wa).
  { subst wa m. rewrite <- (@Alert_unfold json_plain "Connected" w).
    apply step_Alert. congruence. }
  assert (Hstep2 : @step json_plain wa wb).
  { apply step_broadcast.
    - exact Hh.
    - change (senders wa) with (senders w ++ [m]). by rewrite Hs.
    - change (tunnels wa) with (tunnels w). by rewrite Ht. }
  assert (Hreach : @reachable json_plain (hub_pass 2 wb)).
  { eapply reachable_rtc; [exact Hr|].
    eapply rtc_l; [exact Hstep1|]. eapply rtc_l; [exact Hstep2|].
    apply hub_pass_steps. }
  split; [exact Hreach|].
  set (tn := {| ws_closed := false;
                message := {| buf := replicate 256 hr; cap := 256; closed := false |};
                serve := SRead; writer := WRange |}) in *.
  assert (Hwb : hub_pass 2 wb = set_hub HLockWait wb).
  { change (hub_pass 2 wb) with (hub_pass 1 (hub_visit m 0%nat [] wb)).
    rewrite (hub_visit_full_locked m 0%nat [] wb tn).
    - reflexivity.
    - change (tunnels wb) with (tunnels w). rewrite Ht. by eexists.
    - change (heap wb) with (heap w). rewrite Hheap. apply lookup_insert_eq.
    - reflexivity.
    - change (chan_full (message tn)) with (256 <=? length (replicate 256 hr))%nat.
      by rewrite length_replicate.
    - exact Hm. }
  rewrite Hwb in *.
  change (hub (set_hub HLockWait wb)) with HLockWait.
  change (tunnels (set_hub HLockWait wb)) with (tunnels w).
  change (heap (set_hub HLockWait wb)) with (heap w).
  rewrite Ht, Hheap, lookup_insert_eq.
  split; [reflexivity|]. split; [reflexivity|]. split; [reflexivity|].
  split; [|by apply (@no_tunnel_is_ever_removed json_plain)].
  change (Some (length (replicate 256 hr)) = Some 256%nat).
  by rewrite length_replicate.
Qed.



(** The test of the read loop on the frames of the browser. *)
Example client_hello_is_recognised : Contains client_hello command_hello = true.
Proof. reflexivity. Qed.

Example client_info_is_not : Contains client_info command_hello = false.
Proof. reflexivity. Qed.

Example garbage_is_not :
  Contains (list_ascii_of_string "not json at all") command_hello = false
  ∧ Contains [] command_hello = false.
Proof. split; reflexivity. Qed.





Lemma reloaded_reachable : @reachable json_plain reloaded.
Proof.
  eapply reachable_rtc; [apply (@joined_reachable json_plain)|].
  unfold reloaded.
  eapply rtc_l; [apply (@step_Reload json_plain joined "/static/site.css"); done|].
  eapply rtc_l; [|apply hub_pass_steps].
  apply step_broadcast; reflexivity.
Qed.

(** C6.  Every frame that is ever put into a mailbox is the encoding of
    one of the three shapes with the matching discriminator; those put
    there by the hub are the [alert] and [reload] frames waiting on the
    broadcast channel, nothing else.  For every path [p], [Reload(p)]
    hands to the broadcast channel the encoding of
    [reload{Command: "reload", Path: p, LiveCSS: true}], and for every
    message [m], [Alert(m)] hands over the encoding of
    [alert{Command: "alert", Message: m}]. *)
Theorem emitted_frames_are_well_formed `{JSON} (w : world) :
  reachable w ->
  (forall who t m, EvEnqueue who t m ∈ trace w -> well_formed m)
  ∧ (forall t m, EvEnqueue Hub t m ∈ trace w -> is_alert_or_reload m)
  ∧ Forall is_alert_or_reload (senders w)
  ∧ (forall path,
       senders (Reload path w) =
       senders w ++ [(json_Marshal (FReload {| reload_Command := "reload";
                                               reload_Path := path;
                                               reload_LiveCSS := true |})).1])
  ∧ (forall message,
       senders (Alert message w) =
       senders w ++ [(json_Marshal (FAlert {| alert_Command := "alert";
                                              alert_Message := message |})).1]).
Proof.
  intros Hw. destruct (frames_inv_reachable w Hw) as [Hsn _ _ Htr].
  rewrite Forall_forall in Htr.
  split; [|split; [|split; [exact Hsn|split]]].
  - intros who t m Hin. eapply emitted_ok_well_formed, Htr, Hin.
  - intros t m Hin. exact (Htr _ Hin).
  - intros path. by rewrite Reload_unfold.
  - intros message. by rewrite Alert_unfold.
Qed.

Lemma emitted_frames_are_well_formed_witness :
  @well_formed json_plain (@reload_frame json_plain "/static/site.css").
Proof.
  destruct (@emitted_frames_are_well_formed json_plain reloaded reloaded_reachable)
    as (Hwf & _).
  apply (Hwf Hub 0%nat).
  assert (Htr : trace reloaded =
                [EvInsert 0%nat;
                 EvEnqueue Hub 0%nat (@reload_frame json_plain "/static/site.css")])
    by reflexivity.
  rewrite Htr. apply list_elem_of_further, list_elem_of_here.
Defined.

(** A successful upgrade, by contrast, allocates a tunnel that stands at
    the join. *)
Lemma Serve_upgrade_success (w : world) :
  let tn := fresh (dom (heap w)) in
  heap w !! tn = None
  ∧ heap (Serve None w) !! tn =
      Some {| ws_closed := false; message := make_chan 256;
              serve := SJoin; writer := WNone |}.
Proof.
  intros tn. split.
  - apply not_elem_of_dom, is_fresh.
  - unfold Serve. cbn. apply lookup_insert_eq.
Qed.

(** C7.  If the upgrade fails, [Serve] returns with the state exactly as
    it was: no tunnel is allocated, the registry is the same, no
    goroutine is left at the join, and whatever the program can do
    afterwards it could do had the request never come. *)
Theorem Serve_upgrade_failure `{JSON} (w : world) (e : error) :
  Serve (Some e) w = w
  ∧ heap (Serve (Some e) w) = heap w
  ∧ tunnels (Serve (Some e) w) = tunnels w
  ∧ trace (Serve (Some e) w) = trace w
  ∧ (forall w', rtc step (Serve (Some e) w) w' <-> rtc step w w').
Proof. done. Qed.

(** C8.  While the process lives, [Alert] and [Reload] can always be
    called and only leave a goroutine at the broadcast channel: the
    caller waits for nobody, whatever the hub is doing.  When the hub, at
    its [select] with an empty registry, takes the frame of
    [Alert(message)], the pass visits nothing and the state is again
    what it was before the call: registry empty, nothing panicked. *)
Theorem Alert_and_Reload_never_block `{JSON}
    (w : world) (message path : string) (order : list tid) :
  hub w ≠ HPanic ->
  step w (Alert message w)
  ∧ step w (Reload path w)
  ∧ Alert message w = set_senders (senders w ++ [alert_frame message]) w
  ∧ Reload path w = set_senders (senders w ++ [reload_frame path]) w
  ∧ (hub w = HSelect -> tunnels w = ∅ ->
     order ≡ₚ elements (dom (tunnels w)) ->
     let i := length (senders w) in
     let wa := Alert message w in
     let wb := hub_broadcast i (alert_frame message) order wa in
     step wa wb
     ∧ hub_pass 1 wb = w
     ∧ tunnels (hub_pass 1 wb) = ∅
     ∧ hub (hub_pass 1 wb) = HSelect).
Proof.
  intros Halive.
  split; [by apply step_Alert|]. split; [by apply step_Reload|].
  split; [apply Alert_unfold|]. split; [apply Reload_unfold|].
  intros Hhub Hempty Hperm i wa wb.
  assert (order = []) as ->.
  { rewrite Hempty, dom_empty_L, elements_empty in Hperm.
    by apply Permutation_nil_r. }
  assert (Hwa : wa = set_senders (senders w ++ [alert_frame message]) w)
    by apply Alert_unfold.
  assert (Hwb : hub_pass 1 wb = w).
  { subst wb i. rewrite Hwa. unfold hub_broadcast. cbn.
    rewrite delete_last. destruct w; cbn in *. by subst. }
  split.
  - subst wb. apply step_broadcast.
    + by rewrite Hwa.
    + rewrite Hwa. cbn. apply lookup_last.
    + rewrite Hwa. cbn. by rewrite Hempty, dom_empty_L, elements_empty.
  - rewrite Hwb. done.
Qed.

Lemma Alert_and_Reload_never_block_witness :
  let w := Start Livereload in
  let wa := @Alert json_plain "Connected" w in
  @step json_plain w wa
  ∧ hub_pass 1 (hub_broadcast 0 (@alert_frame json_plain "Connected") [] wa) = w.
Proof.
  intros w wa.
  destruct (@Alert_and_Reload_never_block json_plain w "Connected" "/" [])
    as (Hstep & _ & _ & _ & Hpass); [done|].
  split; [exact Hstep|].
  destruct Hpass as (_ & Hback & _); [reflexivity..|]. exact Hback.
Defined.

(* ===================================================================== *)
(** * Part II, continued. Further properties of the code *)
(* ===================================================================== *)

(** ** web/livereload.go: mailboxes *)

Lemma enqueued_app t tr1 tr2 :
  enqueued t (tr1 ++ tr2) = enqueued t tr1 ++ enqueued t tr2.
Proof.
  induction tr1 as [|e tr1 IH]; [done|].
  destruct e as [| |who t'|who t' m|t' m]; cbn; try done.
  case_decide; cbn; by rewrite IH.
Qed.

Lemma dequeued_app t tr1 tr2 :
  dequeued t (tr1 ++ tr2) = dequeued t tr1 ++ dequeued t tr2.
Proof.
  induction tr1 as [|e tr1 IH]; [done|].
  destruct e as [| |who t'|who t' m|t' m]; cbn; try done.
  case_decide; cbn; by rewrite IH.
Qed.

Lemma fanned_out_app tr1 tr2 :
  fanned_out (tr1 ++ tr2) = fanned_out tr1 ++ fanned_out tr2.
Proof.
  induction tr1 as [|e tr1 IH]; [done|].
  destruct e as [| |who t'|[| |] t' m|t' m]; cbn; try done. by rewrite IH.
Qed.

(** How a world whose heap changed in one place, and whose trace grew,
    keeps its accounts. *)
Lemma queue_inv_update (w w' : world) (t : tid) (tn tn' : tunnel) (evs : list event) :
  queue_inv w ->
  heap w !! t = Some tn ->
  heap w' = <[t := tn']> (heap w) ->
  trace w' = trace w ++ evs ->
  (forall t', t' ≠ t -> enqueued t' evs = [] ∧ dequeued t' evs = []) ->
  dequeued t evs ++ buf (message tn') = buf (message tn) ++ enqueued t evs ->
  (length (buf (message tn')) ≤ cap (message tn'))%nat ->
  queue_inv w'.
Proof.
  intros Hinv Ht Hheap Htr Hothers Hacc Hcap t0.
  rewrite Hheap, Htr, enqueued_app, dequeued_app.
  specialize (Hinv t0).
  destruct (decide (t0 = t)) as [->|Hne].
  - rewrite lookup_insert_eq. rewrite Ht in Hinv. destruct Hinv as [Heq _].
    split; [|done]. rewrite Heq, <- !app_assoc. by f_equal.
  - rewrite lookup_insert_ne by done.
    destruct (Hothers t0 Hne) as [-> ->]. by rewrite !app_nil_r.
Qed.

(** A change that touches no mailbox, with a record that grew by events
    that concern no mailbox. *)
Lemma queue_inv_alter (w w' : world) (t : tid) (f : tunnel -> tunnel) (evs : list event) :
  queue_inv w ->
  (forall tn, message (f tn) = message tn) ->
  heap w' = alter f t (heap w) ->
  trace w' = trace w ++ evs ->
  (forall t, enqueued t evs = [] ∧ dequeued t evs = []) ->
  queue_inv w'.
Proof.
  intros Hinv Hf Hheap Htr Hevs t0.
  rewrite Hheap, Htr, enqueued_app, dequeued_app.
  destruct (Hevs t0) as [-> ->]. rewrite !app_nil_r.
  specialize (Hinv t0).
  rewrite lookup_alter. case_decide as Heq; [subst t0|done].
  destruct (heap w !! t) as [tn|]; cbn; [|done]. by rewrite Hf.
Qed.

Lemma queue_inv_alter_quiet (w w' : world) (t : tid) (f : tunnel -> tunnel) :
  queue_inv w ->
  (forall tn, message (f tn) = message tn) ->
  heap w' = alter f t (heap w) ->
  trace w' = trace w ->
  queue_inv w'.
Proof.
  intros Hinv Hf Hheap Htr.
  apply (queue_inv_alter w w' t f []); try done. by rewrite app_nil_r.
Qed.

Lemma queue_inv_same (w w' : world) (evs : list event) :
  queue_inv w ->
  heap w' = heap w ->
  trace w' = trace w ++ evs ->
  (forall t, enqueued t evs = [] ∧ dequeued t evs = []) ->
  queue_inv w'.
Proof.
  intros Hinv Hheap Htr Hevs t0. rewrite Hheap, Htr, enqueued_app, dequeued_app.
  destruct (Hevs t0) as [-> ->]. rewrite !app_nil_r. apply Hinv.
Qed.

Lemma queue_inv_ext (w w' : world) :
  queue_inv w -> heap w' = heap w -> trace w' = trace w -> queue_inv w'.
Proof.
  intros Hinv Hheap Htr. apply (queue_inv_same w w' []); try done.
  by rewrite app_nil_r.
Qed.

Lemma alter_as_insert {A} (f : A -> A) (t : tid) (x : A) (h : gmap tid A) :
  h !! t = Some x -> alter f t h = <[t := f x]> h.
Proof.
  intros Hx. apply map_eq. intros k. rewrite lookup_alter, lookup_insert.
  case_decide; [subst k; by rewrite Hx|done].
Qed.

Lemma queue_inv_hub_close (t : tid) (w : world) :
  queue_inv w -> queue_inv (hub_close t w).
Proof.
  intros Hinv. unfold hub_close.
  destruct (heap w !! t) as [tn|] eqn:Ht; [|done].
  destruct (closed (message tn)).
  - apply (queue_inv_same w _ [EvClose Hub t]); done.
  - pose proof (Hinv t) as Hacc. rewrite Ht in Hacc. destruct Hacc as [_ Hcap].
    apply (queue_inv_update w _ t tn (set_message (chan_close (message tn)) tn)
             [EvClose Hub t]); try done.
    cbn. by rewrite app_nil_r.
Qed.

Lemma chan_room_length (c : chan) (m : bytes) :
  chan_full c = false -> (length (buf c ++ [m]) ≤ cap c)%nat.
Proof.
  unfold chan_full. intros Hroom%Nat.leb_gt. rewrite length_app. cbn. lia.
Qed.

Lemma queue_inv_step `{JSON} (w w' : world) :
  queue_inv w -> step w w' -> queue_inv w'.
Proof.
  intros Hinv Hstep. step_cases Hstep.
  - by apply (queue_inv_ext w).
  - rewrite Alert_unfold. by apply (queue_inv_ext w).
  - rewrite Reload_unfold. by apply (queue_inv_ext w).
  - destruct upgrade; [done|]. intros t0. unfold Serve. cbn.
    pose proof (Hinv (fresh (dom (heap w)))) as Hfresh.
    rewrite (not_elem_of_dom_1 (heap w) _ (is_fresh _)) in Hfresh.
    destruct (decide (t0 = fresh (dom (heap w)))) as [->|Hne].
    + rewrite lookup_insert_eq. destruct Hfresh as [-> ->]. cbn. split; [done|lia].
    + rewrite lookup_insert_ne by done. apply Hinv.
  - destruct (mutex w) eqn:Hm.
    + rewrite hub_join_locked by done.
      eapply (queue_inv_alter_quiet w _ t); [done| |reflexivity|reflexivity]; done.
    + rewrite hub_join_free by done.
      eapply (queue_inv_alter w _ t _ [EvInsert t]);
        [done| |reflexivity|reflexivity|done]; done.
  - destruct (mutex w) eqn:Hm.
    + rewrite hub_leave_locked by done.
      eapply (queue_inv_alter_quiet w _ t); [done| |reflexivity|reflexivity]; done.
    + rewrite hub_leave_free by done. apply queue_inv_hub_close.
      eapply (queue_inv_alter w _ t _ [EvDelete t]);
        [done| |reflexivity|reflexivity|done]; done.
  - by apply (queue_inv_ext w).
  - unfold hub_range. rewrite Hhub.
    destruct todo as [|t todo]; [by apply (queue_inv_ext w)|].
    destruct (tunnels w !! t) as [b|] eqn:Hb;
      [|rewrite hub_visit_skip by auto; by apply (queue_inv_ext w)].
    destruct (heap w !! t) as [tn|] eqn:Ht;
      [|rewrite hub_visit_skip by auto; by apply (queue_inv_ext w)].
    destruct (closed (message tn)) eqn:Hc;
      [rewrite (hub_visit_closed m t todo w tn) by eauto; by apply (queue_inv_ext w)|].
    destruct (chan_full (message tn)) eqn:Hfull.
    + destruct (mutex w) eqn:Hmx;
        [rewrite (hub_visit_full_locked m t todo w tn) by eauto;
         by apply (queue_inv_ext w)|].
      rewrite (hub_visit_full_free m t todo w tn) by eauto.
      eapply queue_inv_ext; [|reflexivity..]. apply queue_inv_hub_close.
      by apply (queue_inv_same w _ [EvDelete t]).
    + rewrite (hub_visit_room m t todo w tn) by eauto.
      apply (queue_inv_update w _ t tn (deliver m tn) [EvEnqueue Hub t m]); try done.
      * intros t' Hne. cbn. by rewrite decide_False by done.
      * cbn. by rewrite decide_True.
      * exact (chan_room_length (message tn) m Hfull).
  - unfold reader_message. destruct (Contains _ _); [|done].
    eapply (queue_inv_alter_quiet w _ t); [done| |reflexivity|reflexivity]; done.
  - eapply (queue_inv_alter_quiet w _ t); [done| |reflexivity|reflexivity]; done.
  - unfold reader_send. rewrite Ht.
    pose proof (Hinv t) as Hacc. rewrite Ht in Hacc. destruct Hacc as [_ Hcap].
    destruct (closed (message tn)) eqn:Hc.
    + apply (queue_inv_update w _ t tn (set_serve (SLeave true) tn) []); try done.
      * cbn. by rewrite app_nil_r.
      * cbn. by rewrite app_nil_r.
    + destruct Hcan as [?|Hroom]; [done|].
      apply (queue_inv_update w _ t tn
               (set_serve SRead (set_message (chan_push b (message tn)) tn))
               [EvEnqueue (Reader t) t b]); try done.
      * intros t' Hne. cbn. by rewrite decide_False by done.
      * cbn. by rewrite decide_True.
      * exact (chan_room_length (message tn) b Hroom).
  - unfold writer_message.
    pose proof (Hinv t) as Hacc. rewrite Ht in Hacc. destruct Hacc as [_ Hcap].
    match goal with |- context [log ?e ?w0] =>
      assert (Hinv1 : queue_inv (log e w0)) end.
    { apply (queue_inv_update w _ t tn
               (set_message (chan_pop (message tn)) tn) [EvDequeue t msg]); try done.
      - exact (alter_as_insert (λ tn0, set_message (chan_pop (message tn0)) tn0)
                 t tn (heap w) Ht).
      - intros t' Hne. cbn. by rewrite decide_False by done.
      - cbn. rewrite decide_True by done. rewrite Hbuf. cbn. by rewrite app_nil_r.
      - cbn. rewrite Hbuf in *. cbn in *. lia. }
    destruct ok.
    + destruct (Contains _ _); [|done]. rewrite Alert_unfold.
      by eapply queue_inv_ext.
    + eapply (queue_inv_alter_quiet _ _ t); [exact Hinv1| |reflexivity|reflexivity]; done.
  - eapply (queue_inv_alter_quiet w _ t); [done| |reflexivity|reflexivity]; done.
Qed.

Lemma queue_inv_reachable `{JSON} (w : world) : reachable w -> queue_inv w.
Proof.
  induction 1 as [|w w' _ IH Hstep]; [|eauto using queue_inv_step].
  intros t. cbn. by rewrite lookup_empty.
Qed.

(** X1.  In every execution, no mailbox ever holds more than 256 frames:
    the hub sends only through a [select] with a [default], and the read
    loop's send waits for room. *)
Theorem mailbox_never_exceeds_capacity `{JSON} (w : world) (t : tid) (tn : tunnel) :
  reachable w -> heap w !! t = Some tn ->
  (length (buf (message tn)) ≤ 256)%nat.
Proof.
  intros Hw Ht. pose proof (queue_inv_reachable w Hw t) as Hacc.
  rewrite Ht in Hacc. destruct Hacc as [_ Hcap].
  by rewrite (capacity_is_256 w t tn Hw Ht) in Hcap.
Qed.

Lemma mailbox_never_exceeds_capacity_witness :
  (length [@reload_frame json_plain "/static/site.css"] ≤ 256)%nat.
Proof.
  apply (@mailbox_never_exceeds_capacity json_plain reloaded 0%nat
           {| ws_closed := false;
              message := {| buf := [@reload_frame json_plain "/static/site.css"];
                            cap := 256; closed := false |};
              serve := SRead; writer := WRange |}).
  - apply reloaded_reachable.
  - reflexivity.
Defined.

(** X2.  In every execution and for every tunnel, the frames put into its
    mailbox (by the hub or by its read loop), in the order they were put,
    are exactly the frames its write loop has taken out so far, in the
    order it took them, followed by the frames still waiting: the
    mailbox is first-in first-out, loses nothing and repeats nothing. *)
Theorem mailbox_is_fifo `{JSON} (w : world) (t : tid) (tn : tunnel) :
  reachable w -> heap w !! t = Some tn ->
  enqueued t (trace w) = dequeued t (trace w) ++ buf (message tn).
Proof.
  intros Hw Ht. pose proof (queue_inv_reachable w Hw t) as Hacc.
  rewrite Ht in Hacc. by destruct Hacc.
Qed.

Lemma mailbox_is_fifo_witness :
  enqueued 0%nat (trace reloaded)
  = dequeued 0%nat (trace reloaded) ++ [@reload_frame json_plain "/static/site.css"].
Proof.
  apply (@mailbox_is_fifo json_plain reloaded 0%nat
           {| ws_closed := false;
              message := {| buf := [@reload_frame json_plain "/static/site.css"];
                            cap := 256; closed := false |};
              serve := SRead; writer := WRange |}).
  - apply reloaded_reachable.
  - reflexivity.
Defined.

(** ** web/livereload.go: the lock of the loop of [Start] *)

(** X3.  In every execution the registry holds at most one tunnel: the
    first join takes the lock and keeps it, and every later insertion
    sits behind a [Lock] that never returns.  However many browsers
    connect, a broadcast reaches at most one of them. *)
Theorem registry_never_holds_two_tunnels `{JSON} (w : world) :
  reachable w -> (size (tunnels w) ≤ 1)%nat.
Proof. intros Hw. by destruct (lock_inv_reachable w Hw). Qed.

Lemma registry_never_holds_two_tunnels_witness :
  (size (tunnels after_leave) ≤ 1)%nat.
Proof.
  apply (@registry_never_holds_two_tunnels json_plain after_leave).
  apply after_leave_reachable.
Defined.

(** X4.  In every execution the hub executes neither [delete] nor
    [close]: no tunnel is taken out of the registry, no mailbox is
    closed, and the hub never panics on a closed channel.  Both
    statements sit behind a [Lock] that can only be the second one. *)
Theorem hub_never_tears_down `{JSON} (w : world) :
  reachable w ->
  Forall quiet (trace w)
  ∧ (forall t tn, heap w !! t = Some tn -> closed (message tn) = false)
  ∧ hub w ≠ HPanic.
Proof.
  intros Hw. destruct (lock_inv_reachable w Hw) as [Ha _ Ho _ Hq].
  split; [exact Hq|]. split; [|exact Ha]. intros t tn. apply Ho.
Qed.

Lemma hub_never_tears_down_witness :
  Forall quiet (trace after_leave) ∧ hub after_leave ≠ HPanic.
Proof.
  destruct (@hub_never_tears_down json_plain after_leave after_leave_reachable)
    as (Hq & _ & Ha).
  split; [exact Hq|exact Ha].
Defined.

Lemma stuck_step_leak `{JSON} (w w' : world) :
  hub w = HLockWait -> step w w' ->
  fanned_out (trace w') = fanned_out (trace w)
  ∧ senders w `prefix_of` senders w'.
Proof.
  intros Hstuck Hstep. step_cases Hstep; try congruence;
    rewrite ?Alert_unfold, ?Reload_unfold; cbn;
    try (split; [done|]; by apply prefix_app_r); try done.
  - by destruct upgrade.
  - unfold reader_message. by destruct (Contains _ _).
  - unfold reader_send. rewrite Ht. destruct (closed _); [done|].
    cbn. rewrite fanned_out_app. cbn. by rewrite app_nil_r.
  - unfold writer_message.
    assert (Hf : fanned_out (trace w ++ [EvDequeue t msg]) = fanned_out (trace w))
      by (rewrite fanned_out_app; cbn; by rewrite app_nil_r).
    destruct ok; [|done].
    destruct (Contains _ _); rewrite ?Alert_unfold; cbn; [|done].
    split; [done|]. by apply prefix_app_r.
Qed.

(** X5.  Once the hub is inside [Lock] it never leaves it: in every
    continuation the hub is still there, the registry is frozen, the hub
    delivers no further frame to any mailbox, and the goroutines that
    [Alert] and [Reload] left at the broadcast channel are never
    served, they only accumulate. *)
Theorem blocked_hub_never_recovers `{JSON} (w w' : world) :
  hub w = HLockWait -> rtc step w w' ->
  hub w' = HLockWait
  ∧ tunnels w' = tunnels w
  ∧ fanned_out (trace w') = fanned_out (trace w)
  ∧ senders w `prefix_of` senders w'.
Proof.
  intros Hstuck Hsteps.
  induction Hsteps as [|w w1 w2 Hstep _ IH]; [done|].
  destruct (stuck_step _ _ Hstuck Hstep) as (Hh & Ht & _).
  destruct (stuck_step_leak _ _ Hstuck Hstep) as (Hf & Hs).
  destruct (IH Hh) as (? & ? & ? & ?).
  repeat split; try congruence. by etrans.
Qed.

Lemma blocked_hub_never_recovers_witness :
  let w' := @Reload json_plain "/index.html" (@Alert json_plain "Connected" after_leave) in
  hub w' = HLockWait
  ∧ senders w' = [@alert_frame json_plain "Connected";
                  @reload_frame json_plain "/index.html"].
Proof.
  intros w'.
  destruct (@blocked_hub_never_recovers json_plain after_leave w') as (Hh & _).
  - reflexivity.
  - eapply rtc_l; [apply (@step_Alert json_plain after_leave "Connected"); done|].
    eapply rtc_l; [|apply rtc_refl].
    apply (@step_Reload json_plain _ "/index.html"). done.
  - split; [exact Hh|reflexivity].
Defined.

Lemma registry_inv_update (w w' : world) (t0 : tid) :
  registry_inv w ->
  (forall t b, tunnels w' !! t = Some b -> tunnels w !! t = Some b) ->
  (forall t, t ≠ t0 -> heap w' !! t = heap w !! t) ->
  (forall tn, heap w !! t0 = Some tn -> has_joined tn ->
     ∃ tn', heap w' !! t0 = Some tn' ∧ has_joined tn') ->
  registry_inv w'.
Proof.
  intros Hinv Hreg Hother Hat t b Hb.
  destruct (Hinv t b (Hreg t b Hb)) as (-> & tn & Ht & Hj). split; [done|].
  destruct (decide (t = t0)) as [->|Hne]; [by apply (Hat tn)|].
  exists tn. by rewrite Hother.
Qed.

Lemma registry_inv_alter (w w' : world) (t0 : tid) (f : tunnel -> tunnel) :
  registry_inv w ->
  (forall t b, tunnels w' !! t = Some b -> tunnels w !! t = Some b) ->
  heap w' = alter f t0 (heap w) ->
  (forall tn, has_joined tn -> has_joined (f tn)) ->
  registry_inv w'.
Proof.
  intros Hinv Hreg Hheap Hf. apply (registry_inv_update w w' t0); try done.
  - intros t Hne. by rewrite Hheap, lookup_alter_ne.
  - intros tn Ht Hj. exists (f tn). rewrite Hheap, lookup_alter_eq, Ht. eauto.
Qed.

Lemma registry_inv_insert (w w' : world) (t0 : tid) (tn0 tn' : tunnel) :
  registry_inv w ->
  (forall t b, tunnels w' !! t = Some b -> tunnels w !! t = Some b) ->
  heap w !! t0 = Some tn0 ->
  heap w' = <[t0 := tn']> (heap w) ->
  (has_joined tn0 -> has_joined tn') ->
  registry_inv w'.
Proof.
  intros Hinv Hreg Ht0 Hheap Hf. apply (registry_inv_update w w' t0); try done.
  - intros t Hne. by rewrite Hheap, lookup_insert_ne.
  - intros tn Ht Hj. exists tn'. rewrite Hheap, lookup_insert_eq.
    split; [done|]. apply Hf. congruence.
Qed.

Lemma registry_inv_ext (w w' : world) :
  registry_inv w -> tunnels w' = tunnels w -> heap w' = heap w -> registry_inv w'.
Proof. intros Hinv Ht Hh t b. rewrite Ht, Hh. apply Hinv. Qed.

Lemma registry_inv_hub_close (t : tid) (w : world) :
  registry_inv w -> registry_inv (hub_close t w).
Proof.
  intros Hinv. unfold hub_close.
  destruct (heap w !! t) as [tn|] eqn:Ht; [|done].
  destruct (closed (message tn)); [by apply (registry_inv_ext w)|].
  by apply (registry_inv_insert w _ t tn (set_message (chan_close (message tn)) tn)).
Qed.

Lemma registry_inv_step `{JSON} (w w' : world) :
  registry_inv w -> step w w' -> registry_inv w'.
Proof.
  intros Hinv Hstep. step_cases Hstep.
  - by apply (registry_inv_ext w).
  - rewrite Alert_unfold. by apply (registry_inv_ext w).
  - rewrite Reload_unfold. by apply (registry_inv_ext w).
  - destruct upgrade; [done|].
    apply (registry_inv_update w _ (fresh (dom (heap w)))); try done.
    + intros t Hne. unfold Serve. cbn. by rewrite lookup_insert_ne.
    + intros tn Hin. by rewrite (not_elem_of_dom_1 (heap w) _ (is_fresh _)) in Hin.
  - assert (Hf : forall tn0, has_joined (set_writer WRange (set_serve SRead tn0)))
      by (by split).
    destruct (mutex w) eqn:Hm.
    + rewrite hub_join_locked by done.
      eapply (registry_inv_alter w _ t); [done|done|reflexivity|].
      intros tn0 _. apply Hf.
    + rewrite hub_join_free by done. intros t' b. cbn.
      destruct (decide (t' = t)) as [->|Hne].
      * rewrite lookup_insert_eq, lookup_alter_eq, Ht. intros [= <-]. eauto.
      * rewrite lookup_insert_ne, lookup_alter_ne by done. apply Hinv.
  - assert (Hf : forall tn0, has_joined tn0 -> has_joined (set_serve SDone tn0))
      by (intros tn0 [? ?]; by split).
    destruct (mutex w) eqn:Hm.
    + rewrite hub_leave_locked by done.
      eapply (registry_inv_alter w _ t); [done|done|reflexivity|exact Hf].
    + rewrite hub_leave_free by done. apply registry_inv_hub_close.
      eapply (registry_inv_alter w _ t); [done| |reflexivity|exact Hf].
      cbn. intros t' b Hb. by apply lookup_delete_Some in Hb as [_ ?].
  - by apply (registry_inv_ext w).
  - unfold hub_range. rewrite Hhub.
    destruct todo as [|t todo]; [by apply (registry_inv_ext w)|].
    destruct (tunnels w !! t) as [b|] eqn:Hb;
      [|rewrite hub_visit_skip by auto; by apply (registry_inv_ext w)].
    destruct (heap w !! t) as [tn|] eqn:Ht;
      [|rewrite hub_visit_skip by auto; by apply (registry_inv_ext w)].
    destruct (closed (message tn)) eqn:Hc;
      [rewrite (hub_visit_closed m t todo w tn) by eauto;
       by apply (registry_inv_ext w)|].
    destruct (chan_full (message tn)) eqn:Hfull.
    + destruct (mutex w) eqn:Hmx;
        [rewrite (hub_visit_full_locked m t todo w tn) by eauto;
         by apply (registry_inv_ext w)|].
      rewrite (hub_visit_full_free m t todo w tn) by eauto.
      eapply registry_inv_ext; [|reflexivity..]. apply registry_inv_hub_close.
      intros t' b' Hb'. cbn in Hb'. apply lookup_delete_Some in Hb' as [_ Hb'].
      by apply Hinv.
    + rewrite (hub_visit_room m t todo w tn) by eauto.
      by apply (registry_inv_insert w _ t tn (deliver m tn)).
  - unfold reader_message. destruct (Contains _ _); [|done].
    eapply (registry_inv_alter w _ t); [done|done|reflexivity|].
    intros tn0 [? ?]. by split.
  - eapply (registry_inv_alter w _ t); [done|done|reflexivity|].
    intros tn0 [? ?]. by split.
  - unfold reader_send. rewrite Ht. destruct (closed (message tn)).
    + apply (registry_inv_insert w _ t tn (set_serve (SLeave true) tn)); try done.
      intros [? ?]. by split.
    + apply (registry_inv_insert w _ t tn
               (set_serve SRead (set_message (chan_push b (message tn)) tn)));
        try done.
      intros [? ?]. by split.
  - unfold writer_message.
    match goal with |- context [log ?e ?w0] =>
      assert (Hinv1 : registry_inv (log e w0)) end.
    { eapply (registry_inv_alter w _ t); [done|done|reflexivity|].
      intros tn0 [? ?]. by split. }
    destruct ok.
    + destruct (Contains _ _); [|done]. rewrite Alert_unfold.
      by eapply registry_inv_ext.
    + eapply (registry_inv_alter _ _ t); [exact Hinv1|done|reflexivity|].
      intros tn0 [? ?]. by split.
  - eapply (registry_inv_alter w _ t); [done|done|reflexivity|].
    intros tn0 [? ?]. by split.
Qed.

Lemma registry_inv_reachable `{JSON} (w : world) : reachable w -> registry_inv w.
Proof.
  induction 1 as [|w w' _ IH Hstep]; [|eauto using registry_inv_step].
  intros t b. cbn. by rewrite lookup_empty.
Qed.

Lemma second_arrives_reachable `{JSON} : reachable second_arrives.
Proof.
  eapply reachable_step; [apply joined_reachable|].
  by apply (step_Serve _ None).
Qed.

Lemma leaving_reachable `{JSON} : reachable leaving.
Proof.
  eapply reachable_step; [apply joined_reachable|].
  eapply (step_reader_error _ 0%nat); [done|reflexivity|reflexivity].
Qed.

(** X6.  In every execution, whatever is in the registry is there with the
    value [true], is a tunnel that [Serve] allocated and that went
    through the join (its read and write loops were started), and has an
    open mailbox. *)
Theorem registry_holds_joined_open_tunnels `{JSON} (w : world) (t : tid) (b : bool) :
  reachable w -> tunnels w !! t = Some b ->
  b = true
  ∧ ∃ tn, heap w !! t = Some tn
          ∧ serve tn ≠ SJoin ∧ writer tn ≠ WNone
          ∧ closed (message tn) = false.
Proof.
  intros Hw Hb.
  destruct (registry_inv_reachable w Hw t b Hb) as (-> & tn & Ht & Hs & Hwr).
  split; [done|]. exists tn. repeat split; try done.
  by apply (inv_open w (lock_inv_reachable w Hw) t tn).
Qed.

Lemma registry_holds_joined_open_tunnels_witness :
  ∃ tn, heap joined !! 0%nat = Some tn ∧ serve tn ≠ SJoin ∧ closed (message tn) = false.
Proof.
  destruct (@registry_holds_joined_open_tunnels json_plain joined 0%nat true)
    as (_ & tn & Ht & Hs & _ & Ho).
  - apply joined_reachable.
  - reflexivity.
  - by exists tn.
Defined.

(** X7.  In every execution, the hub's handling of a leave never gets past
    its [Lock]: the sender is released, but the hub stays inside [Lock],
    the tunnel stays in the registry, its mailbox is left as it was (not
    closed), and nothing is recorded as deleted or closed. *)
Theorem every_leave_blocks_the_hub `{JSON}
    (w : world) (t : tid) (tn : tunnel) (panicking : bool) :
  reachable w -> hub w = HSelect ->
  heap w !! t = Some tn -> serve tn = SLeave panicking ->
  let w' := hub_leave t w in
  step w w'
  ∧ hub w' = HLockWait
  ∧ tunnels w' = tunnels w
  ∧ heap w' !! t = Some (set_serve SDone tn)
  ∧ message (set_serve SDone tn) = message tn
  ∧ trace w' = trace w.
Proof.
  intros Hw Hh Ht Hs w'. subst w'.
  split; [by eapply step_leave|].
  assert (Hm : mutex w = true).
  { eapply joined_means_locked; eauto using inv_fresh, lock_inv_reachable.
    left. congruence. }
  rewrite hub_leave_locked by done. cbn.
  by rewrite lookup_alter_eq, Ht.
Qed.

Lemma every_leave_blocks_the_hub_witness :
  hub (hub_leave 0 leaving) = HLockWait
  ∧ tunnels (hub_leave 0 leaving) = tunnels leaving.
Proof.
  destruct (@every_leave_blocks_the_hub json_plain leaving 0%nat
              {| ws_closed := true; message := make_chan 256;
                 serve := SLeave false; writer := WRange |} false)
    as (_ & Hh & Ht & _); [apply leaving_reachable|reflexivity..|].
  split; [exact Hh|exact Ht].
Defined.

(** X8.  In every execution, once a tunnel is registered, the hub's
    handling of any further join never gets past its [Lock]: the new
    browser's [Serve] goes on into [connect] (both loops run), but the
    hub stays inside [Lock] and the new tunnel is not in the registry. *)
Theorem second_join_blocks_the_hub `{JSON} (w : world) (t : tid) (tn : tunnel) :
  reachable w -> hub w = HSelect ->
  heap w !! t = Some tn -> serve tn = SJoin ->
  tunnels w ≠ ∅ ->
  let w' := hub_join t w in
  step w w'
  ∧ hub w' = HLockWait
  ∧ tunnels w' = tunnels w
  ∧ tunnels w' !! t = None
  ∧ heap w' !! t = Some (set_writer WRange (set_serve SRead tn)).
Proof.
  intros Hw Hh Ht Hs Hne w'. subst w'.
  split; [by eapply step_join|].
  assert (Hm : mutex w = true).
  { destruct (mutex w) eqn:Hm; [done|].
    by destruct (inv_fresh w (lock_inv_reachable w Hw) Hm). }
  rewrite hub_join_locked by done. cbn.
  split; [done|]. split; [done|]. split; [|by rewrite lookup_alter_eq, Ht].
  destruct (tunnels w !! t) as [b|] eqn:Hb; [|done].
  destruct (registry_inv_reachable w Hw t b Hb) as (_ & tn' & Ht' & Hj & _).
  congruence.
Qed.

Lemma second_join_blocks_the_hub_witness :
  hub (hub_join 1 second_arrives) = HLockWait
  ∧ tunnels (hub_join 1 second_arrives) !! 1%nat = None.
Proof.
  destruct (@second_join_blocks_the_hub json_plain second_arrives 1%nat
              {| ws_closed := false; message := make_chan 256;
                 serve := SJoin; writer := WNone |})
    as (_ & Hh & _ & Hn & _); [apply second_arrives_reachable|reflexivity..| |].
  - intros He. apply (f_equal (λ m : gmap tid bool, m !! 0%nat)) in He.
    discriminate He.
  - split; [exact Hh|exact Hn].
Defined.

(** X9.  In every execution, a broadcast pass that reaches a registered
    tunnel whose mailbox is full stops there for good: the hub goes into
    [Lock] with everything else as it was, so the tunnel is neither
    removed nor closed and the tunnels still to be visited get
    nothing. *)
Theorem full_mailbox_blocks_the_pass `{JSON}
    (w : world) (m : bytes) (t : tid) (todo : list tid) (tn : tunnel) :
  reachable w -> hub w = HRange m (t :: todo) ->
  is_Some (tunnels w !! t) -> heap w !! t = Some tn ->
  chan_full (message tn) = true ->
  step w (hub_range w)
  ∧ hub_range w = set_hub HLockWait w.
Proof.
  intros Hw Hh Hreg Ht Hfull.
  split; [by eapply step_range|].
  pose proof (lock_inv_reachable w Hw) as Hinv.
  unfold hub_range. rewrite Hh.
  apply (hub_visit_full_locked m t todo w tn); try done.
  - by apply (inv_open w Hinv t tn).
  - eapply registered_means_locked; eauto using inv_fresh.
Qed.

Lemma flooded_start_reachable : @reachable json_plain flooded_start.
Proof.
  destruct (flood_reachable 256) as (Hr & Hh & Ht & Hm & Hs & Hheap); [lia|].
  unfold flooded_start. generalize dependent (flood 256).
  intros w Hr Hh Ht Hm Hs Hheap.
  eapply reachable_step; [eapply reachable_step; [exact Hr|]|].
  - apply (@step_Alert json_plain w "Connected"). congruence.
  - apply step_broadcast.
    + rewrite Alert_unfold. exact Hh.
    + rewrite Alert_unfold. cbn. by rewrite Hs.
    + rewrite Alert_unfold. cbn. by rewrite Ht.
Qed.

Lemma full_mailbox_blocks_the_pass_witness :
  hub_range flooded_start = set_hub HLockWait flooded_start.
Proof.
  pose proof flooded_start_reachable as Hreach.
  destruct (flood_reachable 256) as (_ & _ & Ht & _ & _ & Hheap); [lia|].
  unfold flooded_start in *. generalize dependent (flood 256).
  intros w Hreach Ht Hheap.
  apply (@full_mailbox_blocks_the_pass json_plain _
           (@alert_frame json_plain "Connected") 0%nat []
           {| ws_closed := false;
              message := {| buf := replicate 256 (@hello_reply json_plain);
                            cap := 256; closed := false |};
              serve := SRead; writer := WRange |}).
  - exact Hreach.
  - reflexivity.
  - rewrite Alert_unfold. cbn [tunnels hub_broadcast set_hub set_senders].
    rewrite Ht. by eexists.
  - rewrite Alert_unfold. cbn [heap hub_broadcast set_hub set_senders].
    rewrite Hheap. apply lookup_insert_eq.
  - unfold chan_full. cbn [message cap buf]. by rewrite length_replicate.
Defined.

(** ** web/livereload.go: the handshake, end to end *)

(** X10.  A browser's handshake on an idle tunnel (reading, mailbox empty,
    connection open) runs through both loops: the read loop queues the
    reply, the write loop takes it out and writes it, and, the written
    frame containing ["command":"hello"], calls [Alert("Connected")].
    Afterwards the tunnel is as before and one more goroutine stands at
    the broadcast channel with the [alert] frame "Connected".  The
    encoder is assumed to print the discriminator of the reply the way
    [encoding/json] does. *)
Theorem handshake_raises_connected_alert `{JSON}
    (w : world) (t : tid) (tn : tunnel) (msg : bytes) :
  hub w ≠ HPanic ->
  heap w !! t = Some tn ->
  serve tn = SRead -> writer tn = WRange -> ws_closed tn = false ->
  closed (message tn) = false -> buf (message tn) = [] ->
  chan_full (message tn) = false ->
  Contains msg command_hello = true ->
  Contains hello_reply command_hello = true ->
  let w1 := reader_message t msg w in
  let w2 := reader_send t hello_reply w1 in
  let w3 := writer_message t hello_reply true w2 in
  step w w1 ∧ step w1 w2 ∧ step w2 w3
  ∧ heap w3 = heap w
  ∧ senders w3 = senders w ++ [alert_frame "Connected"]
  ∧ tunnels w3 = tunnels w ∧ hub w3 = hub w
  ∧ trace w3 = trace w ++ [EvEnqueue (Reader t) t hello_reply;
                           EvDequeue t hello_reply].
Proof.
  intros Halive Ht Hs Hwr Hws Hopen Hbuf Hroom Hmsg Hreply w1 w2 w3.
  set (tn1 := set_serve (SSend hello_reply) tn).
  set (tn2 := set_serve SRead (deliver hello_reply tn1)).
  assert (Hw1 : w1 = set_heap (<[t := tn1]> (heap w)) w).
  { subst w1. rewrite reader_message_hello by done.
    by rewrite (alter_as_insert _ t tn). }
  assert (Hw2 : w2 = log (EvEnqueue (Reader t) t hello_reply)
                       (set_heap (<[t := tn2]> (heap w)) w)).
  { subst w2. rewrite (reader_send_open t hello_reply w1 tn1).
    - rewrite Hw1. cbn. by rewrite insert_insert_eq.
    - rewrite Hw1. cbn. apply lookup_insert_eq.
    - done. }
  assert (Hw3 : w3 = set_senders (senders w ++ [alert_frame "Connected"])
                       (log (EvDequeue t hello_reply)
                          (log (EvEnqueue (Reader t) t hello_reply) w))).
  { subst w3. unfold writer_message. rewrite Hreply, Alert_unfold, Hw2. cbn.
    rewrite (alter_as_insert _ t tn2) by apply lookup_insert_eq.
    rewrite insert_insert_eq.
    replace (set_message (chan_pop (message tn2)) tn2) with tn.
    - by rewrite insert_id.
    - subst tn2 tn1. destruct tn as [wsc [b c cl] sv wt]. cbn in *. by subst. }
  split; [by eapply step_reader_message|].
  split.
  { eapply (step_reader_send w1 t tn1); [by rewrite Hw1| |done|by right].
    rewrite Hw1. cbn. apply lookup_insert_eq. }
  split.
  { eapply (step_writer_message w2 t tn2 hello_reply []); try done.
    - by rewrite Hw2.
    - rewrite Hw2. cbn. apply lookup_insert_eq.
    - subst tn2 tn1. cbn. by rewrite Hbuf.
    - subst tn2 tn1. cbn. congruence. }
  rewrite Hw3. cbn. by rewrite <- app_assoc.
Qed.

Lemma handshake_raises_connected_alert_witness :
  let w1 := @reader_message json_plain 0%nat client_hello joined in
  let w2 := reader_send 0%nat (@hello_reply json_plain) w1 in
  let w3 := @writer_message json_plain 0%nat (@hello_reply json_plain) true w2 in
  heap w3 = heap joined
  ∧ senders w3 = [@alert_frame json_plain "Connected"].
Proof.
  intros w1 w2 w3.
  destruct (@handshake_raises_connected_alert json_plain joined 0%nat
              {| ws_closed := false; message := make_chan 256;
                 serve := SRead; writer := WRange |} client_hello)
    as (_ & _ & _ & Hh & Hs & _); [done|reflexivity..|].
  split; [exact Hh|exact Hs].
Defined.

(** ** utils.go: what a serialized value looks like *)

Lemma encode_in_alphabet (v : Z) :
  0 <= v < 64 -> base64.encode v ∈ list_ascii_of_string base64.encodeURL.
Proof.
  intros Hv. unfold base64.encode.
  apply list_elem_of_In, nth_In. change (length _) with 64%nat. lia.
Qed.

Lemma Encode_url_safe (src : bytes) : Forall url_safe (base64.Encode src).
Proof.
  induction src as [|b0|b0 b1|b0 b1 b2 rest IH] using list_ind3; cbn [base64.Encode].
  - constructor.
  - repeat apply Forall_cons_2; try apply Forall_nil_2;
      first [by right | left; apply encode_in_alphabet, sextet_range; lia].
  - repeat apply Forall_cons_2; try apply Forall_nil_2;
      first [by right | left; apply encode_in_alphabet, sextet_range; lia].
  - do 4 (apply Forall_cons_2;
          [left; apply encode_in_alphabet;
           first [apply sextet_range; lia | apply low_sextet_range]|]).
    exact IH.
Qed.

Lemma Encode_length (src : bytes) :
  length (base64.Encode src) = (4 * ((length src + 2) / 3))%nat.
Proof.
  induction src as [|b0|b0 b1|b0 b1 b2 rest IH] using list_ind3; cbn [base64.Encode].
  - reflexivity.
  - reflexivity.
  - reflexivity.
  - cbn [length]. rewrite IH.
    replace (S (S (S (length rest))) + 2)%nat with (1 * 3 + (length rest + 2))%nat by lia.
    rewrite Nat.div_add_l by lia. lia.
Qed.

Lemma Encode_inj (b b' : bytes) : base64.Encode b = base64.Encode b' -> b = b'.
Proof.
  intros Heq. pose proof (Decode_Encode b) as Hb.
  rewrite Heq, Decode_Encode in Hb. congruence.
Qed.

Lemma string_of_list_ascii_inj (l l' : bytes) :
  string_of_list_ascii l = string_of_list_ascii l' -> l = l'.
Proof.
  intros Heq. rewrite <- (list_ascii_of_string_of_list_ascii l),
                      <- (list_ascii_of_string_of_list_ascii l'). by rewrite Heq.
Qed.

(** X11.  A value returned by a successful [Serialize] consists only of
    the 64 characters of the URL-safe alphabet and '=', and its length is
    four characters for every three bytes (rounded up) of the gob
    encoding: it can be stored in a cookie or a URL as it is. *)
Theorem Serialize_value_is_url_safe (T : Type) (G : Gob T) (x : T) (s : string) :
  Serialize x = (s, None) ->
  Forall url_safe (list_ascii_of_string s)
  ∧ ∃ buffer, gob_Encode x = (buffer, None)
              ∧ String.length s = (4 * ((length buffer + 2) / 3))%nat.
Proof.
  unfold Serialize. intros Hs.
  destruct (gob_Encode x) as [buffer [e|]] eqn:Henc; [discriminate|].
  injection Hs as <-. unfold base64.EncodeToString.
  rewrite list_ascii_of_string_of_list_ascii. split; [apply Encode_url_safe|].
  exists buffer. split; [done|].
  rewrite <- Encode_length.
  generalize (base64.Encode buffer). intros l. induction l; cbn; congruence.
Qed.

Lemma Serialize_value_is_url_safe_witness :
  Forall url_safe (list_ascii_of_string "AQ==") ∧ String.length "AQ==" = 4%nat.
Proof.
  destruct (Serialize_value_is_url_safe bool gob_bool true "AQ==" eq_refl)
    as (Hsafe & buffer & Henc & Hlen).
  split; [exact Hsafe|reflexivity].
Defined.

(** X12.  [Serialize] adds no collision of its own: two values that
    serialize to the same string have the same gob encoding. *)
Theorem Serialize_is_injective (T : Type) (G : Gob T) (x x' : T) (s : string) :
  Serialize x = (s, None) -> Serialize x' = (s, None) ->
  gob_Encode x = gob_Encode x'.
Proof.
  unfold Serialize. intros Hx Hx'.
  destruct (gob_Encode x) as [b [e|]]; [discriminate|].
  destruct (gob_Encode x') as [b' [e'|]]; [discriminate|].
  injection Hx as <-. injection Hx' as Heq.
  apply string_of_list_ascii_inj, Encode_inj in Heq. by subst.
Qed.

Lemma Serialize_is_injective_witness :
  @gob_Encode bool gob_bool true = @gob_Encode bool gob_bool true.
Proof.
  apply (Serialize_is_injective bool gob_bool true true "AQ=="); reflexivity.
Defined.

Lemma skip_newlines_illegal (src : bytes) :
  Exists illegal src -> base64.skip_newlines src ≠ [].
Proof.
  induction src as [|c rest IH]; intros Hex; [by apply Exists_nil in Hex|].
  cbn. destruct (base64.is_newline c) eqn:Hnl; [|done].
  apply IH. apply Exists_cons in Hex as [(_ & Hc & _)|?]; [congruence|done].
Qed.

Lemma finish_illegal (rest : bytes) (dbuf : list Z) (dlen : nat) :
  Exists illegal rest -> (base64.finish rest dbuf dlen).2 ≠ None.
Proof.
  intros Hex%skip_newlines_illegal. unfold base64.finish. cbn.
  by destruct (base64.skip_newlines rest).
Qed.

Lemma Decode_illegal (src : bytes) : forall dbuf,
  Exists illegal src -> (base64.Decode src dbuf).2 ≠ None.
Proof.
  induction src as [|c rest IH]; intros dbuf Hex; [by apply Exists_nil in Hex|].
  cbn [base64.Decode].
  destruct (negb (base64.decodeMap c =? 255)) eqn:Hsym.
  { assert (Hrest : Exists illegal rest).
    { apply Exists_cons in Hex as [(Hc & _)|?]; [|done].
      rewrite Hc in Hsym. discriminate. }
    destruct (length (dbuf ++ [base64.decodeMap c]) =? 4)%nat; [|by apply IH].
    specialize (IH [] Hrest). by destruct (base64.Decode rest []). }
  destruct (base64.is_newline c) eqn:Hnl.
  { apply IH. apply Exists_cons in Hex as [(_ & Hc & _)|?]; [congruence|done]. }
  destruct (negb (Ascii.eqb c base64.padChar)) eqn:Hpad; [done|].
  apply negb_false_iff, Ascii.eqb_eq in Hpad. subst c.
  assert (Hrest : Exists illegal rest).
  { by apply Exists_cons in Hex as [(_ & _ & ?)|?]. }
  destruct (length dbuf) as [|[|[|n]]]; try done.
  - pose proof (skip_newlines_illegal rest Hrest) as Hne.
    destruct (base64.skip_newlines rest) as [|c2 rest2] eqn:Hskip; [done|].
    destruct (Ascii.eqb c2 base64.padChar) eqn:Hc2; [|done].
    apply finish_illegal.
    assert (Hex2 : Exists illegal (c2 :: rest2)).
    { rewrite <- Hskip. clear -Hrest. induction rest as [|c rest IH]; [done|].
      cbn. destruct (base64.is_newline c) eqn:Hnl; [|done].
      apply IH. apply Exists_cons in Hrest as [(_ & Hc & _)|?]; [congruence|done]. }
    apply Ascii.eqb_eq in Hc2. subst c2.
    by apply Exists_cons in Hex2 as [(_ & _ & ?)|?].
  - by apply finish_illegal.
Qed.

(** X13.  [Deserialize] of a string that contains a character which is
    neither in the URL-safe alphabet, nor '=', nor CR or LF, leaves the
    target exactly as it was and still returns nil: the caller cannot
    tell a rejected value from an accepted one. *)
Theorem Deserialize_ignores_illegal_input (T : Type) (G : Gob T)
    (value : string) (object : T) :
  Exists illegal (list_ascii_of_string value) ->
  Deserialize value object = (object, None).
Proof.
  intros Hex. unfold Deserialize, base64.DecodeString.
  pose proof (Decode_illegal _ [] Hex) as Herr.
  destruct (base64.Decode _ []) as [bits [e|]]; [reflexivity|done].
Qed.

Lemma Deserialize_ignores_illegal_input_witness :
  Deserialize "AQ!=" false = (false, None).
Proof.
  apply (Deserialize_ignores_illegal_input bool gob_bool "AQ!=" false).
  apply Exists_cons_tl, Exists_cons_tl, Exists_cons_hd.
  repeat split; [reflexivity..|discriminate].
Defined.

(** ** context.go: [Context] as a response writer *)

Lemma int_add_exact (a b : Z) :
  - 2 ^ 63 <= a + b < 2 ^ 63 -> int_add a b = a + b.
Proof.
  intros Hr. unfold int_add, int_wrap. rewrite Z.mod_small; lia.
Qed.

Lemma last_header_app (l1 l2 : list rw_call) :
  last_header (l1 ++ l2) =
  match last_header l2 with
  | Some s => Some s
  | None => last_header l1
  end.
Proof.
  induction l1 as [|c l1 IH]; cbn; [by destruct (last_header l2)|].
  destruct c; rewrite ?IH; by destruct (last_header l2), (last_header l1).
Qed.

Lemma well_ordered_snoc_header (calls : list rw_call) (status : Z) :
  well_ordered calls -> 100 <= status < 512 ->
  well_ordered (calls ++ [RWWriteHeader status]).
Proof.
  intros [Hhead Hall] Hs. split.
  - by destruct calls as [|[|] ?].
  - apply Forall_app. split; [done|]. by constructor.
Qed.

Lemma well_ordered_snoc_write (calls : list rw_call) (data : bytes) :
  well_ordered calls -> calls ≠ [] ->
  well_ordered (calls ++ [RWWrite data]).
Proof.
  intros [Hhead Hall] Hne. split.
  - by destruct calls as [|[|] ?].
  - apply Forall_app. split; [done|]. by constructor.
Qed.

Lemma WriteHeader_inv {V} (status : Z) (c : Context V) :
  rw_inv c -> rw_inv (WriteHeader status c).
Proof.
  intros (Hwo & Hst & Hwr). unfold WriteHeader.
  destruct (Z.leb_spec 100 status), (Z.ltb_spec status 512); cbn [andb];
    try done.
  assert (100 <= status < 512) as Hs by lia.
  split; [by apply well_ordered_snoc_header|].
  split; [unfold Status; cbn; by rewrite last_header_app|].
  unfold Written. cbn. split.
  - intros _. by destruct (ctx_forwarded c).
  - intros _. apply negb_true_iff, Z.eqb_neq. lia.
Qed.

Lemma Write_inv {V} (data : bytes) (result : Z * option error) (c : Context V) :
  rw_inv c -> rw_inv (Write data result c).1.
Proof.
  intros Hinv. unfold Write.
  set (c1 := if negb (Written c) then WriteHeader 200 c else c).
  assert (Hinv1 : rw_inv c1 ∧ ctx_forwarded c1 ≠ []).
  { subst c1. destruct (Written c) eqn:Hw; cbn [negb].
    - split; [done|]. by apply Hinv.
    - split; [by apply WriteHeader_inv|].
      unfold WriteHeader. cbn. by destruct (ctx_forwarded c). }
  destruct Hinv1 as [(Hwo & Hst & Hwr) Hne]. destruct result as [size err]. cbn.
  split; [by apply well_ordered_snoc_write|].
  split; [unfold Status in *; cbn; by rewrite last_header_app|].
  unfold Written in *. cbn. split; [intros _; by destruct (ctx_forwarded c1)|].
  intros _. by apply Hwr.
Qed.

Lemma rw_run_inv {V} (ops : list rw_op) : forall c : Context V,
  rw_inv c -> rw_inv (rw_run ops c).
Proof.
  induction ops as [|op ops IH]; intros c Hinv; [done|].
  cbn. apply IH. destruct op; [by apply WriteHeader_inv|by apply Write_inv].
Qed.

Lemma reported_nonneg (ops : list rw_op) : Forall honest ops -> 0 <= reported ops.
Proof.
  induction 1 as [|op ops Hop _ IH]; cbn; [lia|].
  destruct op as [status|data [size err]]; cbn in *; lia.
Qed.

Lemma WriteHeader_size {V} (status : Z) (c : Context V) :
  Size (WriteHeader status c) = Size c.
Proof. unfold WriteHeader, Size. by destruct (_ && _). Qed.

Lemma Write_size {V} (data : bytes) (size : Z) (err : option error) (c : Context V) :
  Size (Write data (size, err) c).1 = int_add (Size c) size.
Proof.
  unfold Write. destruct (negb (Written c)); cbn [fst Size ctx_size];
    by rewrite ?WriteHeader_size.
Qed.

Lemma rw_run_size {V} (ops : list rw_op) : forall c : Context V,
  Forall honest ops ->
  - 2 ^ 63 <= Size c -> Size c + reported ops < 2 ^ 63 ->
  Size (rw_run ops c) = Size c + reported ops.
Proof.
  induction ops as [|op ops IH]; intros c Hh Hlo Hhi; [cbn; lia|].
  apply Forall_cons in Hh as [Hop Hh].
  pose proof (reported_nonneg ops Hh) as Hnn.
  change (rw_run (op :: ops) c) with (rw_run ops (rw_step op c)).
  destruct op as [status|data [size err]]; cbn [reported rw_step honest] in *.
  - rewrite IH; rewrite ?WriteHeader_size; done.
  - assert (Hs : Size (Write data (size, err) c).1 = Size c + size).
    { rewrite Write_size. apply int_add_exact. lia. }
    rewrite IH; rewrite ?Hs; try done; lia.
Qed.

(** X14.  On a new [Context], after any sequence of [WriteHeader] and
    [Write] calls, [Size()] is one less than the number of bytes the
    embedded writer reported as written ([size] starts at -1 and every
    [Write] adds to it): -1 before the first [Write], [n - 1] after [n]
    bytes.  The counts are those of an [io.Writer] and stay below
    2^63. *)
Theorem Size_is_one_short (V : Type) (ops : list rw_op) :
  Forall honest ops -> reported ops <= 2 ^ 63 ->
  Size (rw_run ops (NewContext V)) = reported ops - 1.
Proof.
  intros Hh Hhi. rewrite rw_run_size; cbn; try done; lia.
Qed.

Lemma Size_is_one_short_witness :
  Size (rw_run [OpWrite (list_ascii_of_string "hello") (5, None);
                OpWrite (list_ascii_of_string ", world") (7, None)]
          (NewContext unit)) = 11.
Proof.
  apply (Size_is_one_short unit
           [OpWrite (list_ascii_of_string "hello") (5, None);
            OpWrite (list_ascii_of_string ", world") (7, None)]).
  - repeat constructor; cbn; lia.
  - cbn. lia.
Defined.

(** X15.  On a new [Context], after any sequence of [WriteHeader] and
    [Write] calls: no body reaches the embedded writer before a header
    does (a [Write] with no status yet sends 200 first); every status
    that reaches it lies in 100..511, others being dropped;
    [Status()] is the last status that reached it, 0 if none did; and
    [Written()] holds exactly when something reached it. *)
Theorem header_always_precedes_body (V : Type) (ops : list rw_op) :
  let c := rw_run ops (NewContext V) in
  well_ordered (ctx_forwarded c)
  ∧ Status c = default 0 (last_header (ctx_forwarded c))
  ∧ (Written c = true <-> ctx_forwarded c ≠ []).
Proof.
  apply rw_run_inv. split; [|split]; cbn; [by split| done |].
  unfold Written. cbn. by split.
Qed.

(** An out-of-range status is dropped and the first [Write] sends 200;
    a second valid status is forwarded again and wins. *)
Example WriteHeader_edges :
  let data := list_ascii_of_string "ok" in
  let c1 := rw_run [OpWriteHeader 600; OpWrite data (2, None)] (NewContext unit) in
  let c2 := rw_run [OpWriteHeader 404; OpWriteHeader 99; OpWriteHeader 500]
              (NewContext unit) in
  ctx_forwarded c1 = [RWWriteHeader 200; RWWrite data] ∧ Status c1 = 200
  ∧ ctx_forwarded c2 = [RWWriteHeader 404; RWWriteHeader 500] ∧ Status c2 = 500.
Proof. repeat split; reflexivity. Qed.

(** ** context.go: [Context] as a key/value store *)

Lemma Clear_loop_empties {V} (order : list string) : forall d : gmap string (option V),
  (forall key, is_Some (d !! key) -> key ∈ order) ->
  Clear_loop order d = ∅.
Proof.
  induction order as [|key rest IH]; intros d Hcover; cbn.
  - apply map_empty. intros key. apply eq_None_not_Some. intros Hk.
    by apply Hcover, elem_of_nil in Hk.
  - destruct (d !! key) eqn:Hkey; apply IH; intros k Hk.
    + apply lookup_delete_is_Some in Hk as [Hne Hk].
      apply Hcover, elem_of_cons in Hk as [?|?]; [congruence|done].
    + pose proof (Hcover k Hk) as Hin.
      apply elem_of_cons in Hin as [->|?]; [|done].
      rewrite Hkey in Hk. by destruct Hk.
Qed.

(** X16.  [Clear] leaves the store empty whatever order the map hands
    out its keys in (the loop deletes from the map it ranges over):
    afterwards [Get] returns nil for every key, and nothing else of the
    [Context] has changed. *)
Theorem Clear_empties_the_store (V : Type) (order : list string) (self : Context V) :
  order ≡ₚ elements (dom (ctx_data self)) ->
  ctx_data (Clear order self) = ∅
  ∧ (forall key, Get key (Clear order self) = None)
  ∧ Status (Clear order self) = Status self
  ∧ Size (Clear order self) = Size self
  ∧ ctx_forwarded (Clear order self) = ctx_forwarded self.
Proof.
  intros Hperm.
  assert (Hempty : ctx_data (Clear order self) = ∅).
  { unfold Clear. cbn. apply Clear_loop_empties. intros key Hk.
    rewrite Hperm. by apply elem_of_elements, elem_of_dom. }
  split; [done|]. split; [|done].
  intros key. unfold Get. by rewrite Hempty, lookup_empty.
Qed.

Lemma Clear_empties_the_store_witness :
  let self := Set_ "user" (Some 7%nat) (Set_ "lang" None (NewContext nat)) in
  Get "user" self = Some 7%nat
  ∧ Get "user" (Clear ["lang"; "user"]%string self) = None.
Proof.
  intros self. split; [reflexivity|].
  destruct (Clear_empties_the_store nat ["lang"; "user"]%string self) as (_ & Hget & _).
  - vm_compute. first [reflexivity | apply perm_swap].
  - apply Hget.
Defined.

(** X17.  The store behaves as a map with nil for absent keys: [Get]
    returns what the last [Set] on that key stored; [Set] and [Delete]
    on one key do not change what [Get] returns for another; after
    [Delete], and on a new [Context], [Get] returns nil; and storing nil
    cannot be told from deleting. *)
Theorem store_laws (V : Type) (key key' : string) (value : option V) (self : Context V) :
  Get key (Set_ key value self) = value
  ∧ Get key (Delete key self) = None
  ∧ Get key (NewContext V) = None
  ∧ Get key (Set_ key None self) = Get key (Delete key self)
  ∧ (key ≠ key' ->
       Get key' (Set_ key value self) = Get key' self
       ∧ Get key' (Delete key self) = Get key' self).
Proof.
  unfold Get, Set_, Delete. cbn.
  rewrite !lookup_insert_eq, !lookup_delete_eq, lookup_empty.
  repeat split; try done.
  - by rewrite lookup_insert_ne.
  - by rewrite lookup_delete_ne.
Qed.

Lemma store_laws_witness :
  Get "lang" (Set_ "user" (Some 7%nat) (Set_ "lang" (Some 3%nat) (NewContext nat)))
  = Some 3%nat.
Proof.
  destruct (store_laws nat "user" "lang" (Some 7%nat)
              (Set_ "lang" (Some 3%nat) (NewContext nat))) as (_ & _ & _ & _ & Hother).
  destruct Hother as [-> _]; [discriminate|].
  by destruct (store_laws nat "lang" "lang" (Some 3%nat) (NewContext nat)) as [-> _].
Defined.

(** ** crypto/random.go *)








(** ** web/livereload.go: a write loop that ended *)

Lemma writer_dead_alter (w w' : world) (t t0 : tid) (f : tunnel -> tunnel)
    (taken waiting : list bytes) :
  writer_dead w t taken waiting ->
  heap w' = alter f t0 (heap w) -> dequeued t (trace w') = dequeued t (trace w) ->
  (forall tn, t0 = t -> heap w !! t = Some tn -> writer tn = WDone -> serve tn ≠ SJoin ->
     writer (f tn) = WDone ∧ serve (f tn) ≠ SJoin
     ∧ buf (message tn) `prefix_of` buf (message (f tn))) ->
  writer_dead w' t taken waiting.
Proof.
  intros (tn & Ht & Hwr & Hsv & Hdq & Hpre) Hheap Htr Hf.
  destruct (decide (t0 = t)) as [->|Hne].
  - exists (f tn). rewrite Hheap, lookup_alter_eq, Ht.
    destruct (Hf tn eq_refl Ht Hwr Hsv) as (? & ? & ?).
    repeat split; try done; [congruence|by etrans].
  - exists tn. rewrite Hheap, lookup_alter_ne by done.
    repeat split; try done. congruence.
Qed.

Lemma writer_dead_insert (w w' : world) (t t0 : tid) (tn0 tn' : tunnel)
    (taken waiting : list bytes) :
  writer_dead w t taken waiting ->
  heap w !! t0 = Some tn0 ->
  heap w' = <[t0 := tn']> (heap w) -> dequeued t (trace w') = dequeued t (trace w) ->
  writer tn' = writer tn0 -> (serve tn0 ≠ SJoin -> serve tn' ≠ SJoin) ->
  buf (message tn0) `prefix_of` buf (message tn') ->
  writer_dead w' t taken waiting.
Proof.
  intros (tn & Ht & Hwr & Hsv & Hdq & Hpre) Ht0 Hheap Htr Hw Hs Hb.
  destruct (decide (t0 = t)) as [->|Hne].
  - exists tn'. rewrite Hheap, lookup_insert_eq.
    assert (tn0 = tn) as -> by congruence.
    repeat split; try done; [congruence|by auto|congruence|by etrans].
  - exists tn. rewrite Hheap, lookup_insert_ne by done.
    repeat split; try done. congruence.
Qed.

Lemma writer_dead_ext (w w' : world) (t : tid) (taken waiting : list bytes) :
  writer_dead w t taken waiting ->
  heap w' = heap w -> dequeued t (trace w') = dequeued t (trace w) ->
  writer_dead w' t taken waiting.
Proof.
  intros (tn & Ht & Hwr & Hsv & Hdq & Hpre) Hheap Htr.
  exists tn. rewrite Hheap, Htr. done.
Qed.

Lemma dequeued_snoc_other (t : tid) (tr : list event) (e : event) :
  (forall m, e ≠ EvDequeue t m) -> dequeued t (tr ++ [e]) = dequeued t tr.
Proof.
  intros He. rewrite dequeued_app.
  destruct e as [| | | |t' m]; cbn; rewrite ?app_nil_r; try done.
  case_decide as Heq; [|by rewrite app_nil_r]. subst t'. by destruct (He m).
Qed.

Lemma writer_dead_hub_close (w : world) (t t0 : tid) (taken waiting : list bytes) :
  writer_dead w t taken waiting -> writer_dead (hub_close t0 w) t taken waiting.
Proof.
  intros Hd. unfold hub_close.
  destruct (heap w !! t0) as [tn0|] eqn:Ht0; [|done].
  destruct (closed (message tn0)).
  - apply (writer_dead_ext w); [done..|]. by apply dequeued_snoc_other.
  - apply (writer_dead_insert w _ t t0 tn0
             (set_message (chan_close (message tn0)) tn0)); try done.
    by apply dequeued_snoc_other.
Qed.

Lemma writer_dead_step `{JSON} (w w' : world) (t0 : tid) (taken waiting : list bytes) :
  writer_dead w t0 taken waiting -> step w w' -> writer_dead w' t0 taken waiting.
Proof.
  intros Hd Hstep. step_cases Hstep.
  - by apply (writer_dead_ext w).
  - rewrite Alert_unfold. by apply (writer_dead_ext w).
  - rewrite Reload_unfold. by apply (writer_dead_ext w).
  - destruct upgrade; [done|].
    destruct Hd as (tn0 & Ht0 & Hwr & Hsv & Hdq & Hpre). exists tn0.
    unfold Serve. cbn. rewrite lookup_insert_ne; [done|].
    intros <-. by rewrite (not_elem_of_dom_1 (heap w) _ (is_fresh _)) in Ht0.
  - assert (Hf : forall tn1, t = t0 -> heap w !! t0 = Some tn1 ->
                   writer tn1 = WDone -> serve tn1 ≠ SJoin ->
                   writer (set_writer WRange (set_serve SRead tn1)) = WDone
                   ∧ serve (set_writer WRange (set_serve SRead tn1)) ≠ SJoin
                   ∧ buf (message tn1) `prefix_of`
                       buf (message (set_writer WRange (set_serve SRead tn1)))).
    { intros tn1 -> Ht1 _ Hsv. congruence. }
    destruct (mutex w) eqn:Hm.
    + rewrite hub_join_locked by done.
      eapply (writer_dead_alter w _ t0 t); [exact Hd|reflexivity|reflexivity|done].
    + rewrite hub_join_free by done.
      eapply (writer_dead_alter w _ t0 t); [exact Hd|reflexivity| |done].
      by apply dequeued_snoc_other.
  - assert (Hf : forall tn1, t = t0 -> heap w !! t0 = Some tn1 ->
                   writer tn1 = WDone -> serve tn1 ≠ SJoin ->
                   writer (set_serve SDone tn1) = WDone
                   ∧ serve (set_serve SDone tn1) ≠ SJoin
                   ∧ buf (message tn1) `prefix_of` buf (message (set_serve SDone tn1)))
      by done.
    destruct (mutex w) eqn:Hm.
    + rewrite hub_leave_locked by done.
      eapply (writer_dead_alter w _ t0 t); [exact Hd|reflexivity|reflexivity|done].
    + rewrite hub_leave_free by done. apply writer_dead_hub_close.
      eapply (writer_dead_alter w _ t0 t); [exact Hd|reflexivity| |done].
      by apply dequeued_snoc_other.
  - by apply (writer_dead_ext w).
  - unfold hub_range. rewrite Hhub.
    destruct todo as [|t todo]; [by apply (writer_dead_ext w)|].
    destruct (tunnels w !! t) as [b|] eqn:Hb;
      [|rewrite hub_visit_skip by auto; by apply (writer_dead_ext w)].
    destruct (heap w !! t) as [tn|] eqn:Ht;
      [|rewrite hub_visit_skip by auto; by apply (writer_dead_ext w)].
    destruct (closed (message tn)) eqn:Hc;
      [rewrite (hub_visit_closed m t todo w tn) by eauto;
       by apply (writer_dead_ext w)|].
    destruct (chan_full (message tn)) eqn:Hfull.
    + destruct (mutex w) eqn:Hmx;
        [rewrite (hub_visit_full_locked m t todo w tn) by eauto;
         by apply (writer_dead_ext w)|].
      rewrite (hub_visit_full_free m t todo w tn) by eauto.
      eapply writer_dead_ext; [|reflexivity..]. apply writer_dead_hub_close.
      apply (writer_dead_ext w); [done..|]. by apply dequeued_snoc_other.
    + rewrite (hub_visit_room m t todo w tn) by eauto.
      apply (writer_dead_insert w _ t0 t tn (deliver m tn)); try done.
      * by apply dequeued_snoc_other.
      * by apply prefix_app_r.
  - unfold reader_message. destruct (Contains _ _); [|done].
    eapply (writer_dead_alter w _ t0 t); [exact Hd|reflexivity|reflexivity|done].
  - eapply (writer_dead_alter w _ t0 t); [exact Hd|reflexivity|reflexivity|done].
  - unfold reader_send. rewrite Ht. destruct (closed (message tn)).
    + by apply (writer_dead_insert w _ t0 t tn (set_serve (SLeave true) tn)).
    + apply (writer_dead_insert w _ t0 t tn
               (set_serve SRead (set_message (chan_push b (message tn)) tn)));
        try done.
      * by apply dequeued_snoc_other.
      * by apply prefix_app_r.
  - assert (t ≠ t0) as Hne.
    { intros ->. destruct Hd as (tn0 & Ht0 & Hwr & _). congruence. }
    unfold writer_message.
    match goal with |- context [log ?e ?w0] =>
      assert (Hd1 : writer_dead (log e w0) t0 taken waiting) end.
    { eapply (writer_dead_alter w _ t0 t); [exact Hd|reflexivity| |done].
      apply dequeued_snoc_other. congruence. }
    destruct ok.
    + destruct (Contains _ _); [|done]. rewrite Alert_unfold.
      by apply (writer_dead_ext _ _ t0 taken waiting Hd1).
    + eapply (writer_dead_alter _ _ t0 t); [exact Hd1|reflexivity|reflexivity|done].
  - assert (t ≠ t0) as Hne.
    { intros ->. destruct Hd as (tn0 & Ht0 & Hwr & _). congruence. }
    eapply (writer_dead_alter w _ t0 t); [exact Hd|reflexivity|reflexivity|done].
Qed.

(** X20.  Once the write loop of a tunnel has ended (a failed
    [WriteMessage]), it is never started again and nothing is ever taken
    out of that mailbox any more: in every continuation the frames it
    had taken are all it ever took, and what was waiting is still
    waiting, with whatever the hub and the read loop add behind it. *)
Theorem dead_writer_never_drains `{JSON}
    (w w' : world) (t : tid) (tn : tunnel) :
  heap w !! t = Some tn -> writer tn = WDone -> serve tn ≠ SJoin ->
  rtc step w w' ->
  ∃ tn', heap w' !! t = Some tn'
         ∧ writer tn' = WDone
         ∧ dequeued t (trace w') = dequeued t (trace w)
         ∧ buf (message tn) `prefix_of` buf (message tn').
Proof.
  intros Ht Hwr Hsv Hsteps.
  assert (Hd : writer_dead w t (dequeued t (trace w)) (buf (message tn)))
    by (by exists tn).
  clear Ht Hwr Hsv.
  generalize dependent (dequeued t (trace w)).
  generalize dependent (buf (message tn)).
  induction Hsteps as [|w w1 w2 Hstep _ IH]; intros waiting taken Hd.
  - destruct Hd as (tn0 & ? & ? & ? & ? & ?). by exists tn0.
  - apply IH. by eapply writer_dead_step.
Qed.

Lemma dead_writer_never_drains_witness :
  ∃ tn', heap write_failed_alerted !! 0%nat = Some tn'
         ∧ writer tn' = WDone
         ∧ dequeued 0 (trace write_failed_alerted) = dequeued 0 (trace write_failed)
         ∧ [] `prefix_of` buf (message tn').
Proof.
  apply (@dead_writer_never_drains json_plain write_failed write_failed_alerted 0%nat
           {| ws_closed := true;
              message := {| buf := []; cap := 256; closed := false |};
              serve := SRead; writer := WDone |}).
  - reflexivity.
  - reflexivity.
  - discriminate.
  - unfold write_failed_alerted.
    eapply rtc_l; [apply (@step_Alert json_plain write_failed "Saved"); done|].
    eapply rtc_l; [|apply hub_pass_steps].
    apply step_broadcast; reflexivity.
Defined.

(** ** template/loader.go: the chain of [extends] *)

Section AncestorsFacts.
Variable ReadFile : string -> option bytes.
Variable FindExtends : bytes -> option string.

Lemma ancestors_loop_step (fuel : nat) (name base : string) (names : list string) :
  extends ReadFile FindExtends name = Some (Some base) -> base ≠ name ->
  ancestors_loop ReadFile FindExtends (S fuel) name names
  = ancestors_loop ReadFile FindExtends fuel base (base :: names).
Proof.
  unfold extends. intros He Hne. cbn.
  destruct (ReadFile name) as [bits|]; [|done]. cbn in He.
  injection He as ->.
  by rewrite (proj2 (String.eqb_neq base name) Hne).
Qed.

Lemma ancestors_loop_sound (fuel : nat) (Name name : string) (rest names : list string) :
  last (name :: rest) = Some Name ->
  (∀ i base page, (name :: rest) !! i = Some base -> (name :: rest) !! S i = Some page ->
     extends ReadFile FindExtends page = Some (Some base) ∧ base ≠ page) ->
  ancestors_loop ReadFile FindExtends fuel name (name :: rest) = Some (inr names) ->
  lineage ReadFile FindExtends Name names.
Proof.
  revert name rest. induction fuel as [|fuel IH]; intros name rest Hlast Hlinks; [done|].
  cbn. destruct (ReadFile name) as [bits|] eqn:Hread; [|done].
  destruct (FindExtends bits) as [base|] eqn:Hfind.
  - destruct (String.eqb_spec base name) as [|Hne]; [done|].
    apply IH; [done|].
    intros [|i] b p Hb Hp.
    + cbn in Hb, Hp. injection Hb as <-. injection Hp as <-.
      split; [|done]. unfold extends. by rewrite Hread; cbn; rewrite Hfind.
    + by apply (Hlinks i).
  - intros [= <-]. split; [|done].
    exists name. split; [done|]. unfold extends. by rewrite Hread; cbn; rewrite Hfind.
Qed.

Lemma ancestors_loop_complete (before : list string) :
  ∀ (name : string) (rest : list string),
    extends ReadFile FindExtends
      (default name (head (before ++ name :: rest))) = Some None ->
    (∀ i base page, (before ++ name :: rest) !! i = Some base ->
       (before ++ name :: rest) !! S i = Some page ->
       extends ReadFile FindExtends page = Some (Some base) ∧ base ≠ page) ->
    ancestors_loop ReadFile FindExtends (S (length before)) name (name :: rest)
    = Some (inr (before ++ name :: rest)).
Proof.
  induction before as [|base before IH] using rev_ind; intros name rest Hroot Hlinks.
  - cbn in Hroot |- *. unfold extends in Hroot.
    destruct (ReadFile name) as [bits|]; [|done]. cbn in Hroot.
    injection Hroot as ->. done.
  - rewrite length_app, Nat.add_comm. cbn [length Nat.add].
    rewrite <- app_assoc in Hroot, Hlinks |- *. cbn [app] in Hroot, Hlinks |- *.
    destruct (Hlinks (length before) base name) as [He Hne].
    { by rewrite lookup_app_r, Nat.sub_diag by lia. }
    { rewrite lookup_app_r by lia.
      by replace (S (length before) - length before)%nat with 1%nat by lia. }
    rewrite (ancestors_loop_step _ name base) by done.
    apply IH; [|done].
    by destruct before.
Qed.

(** X21.  [ancestors] returns [names] exactly when [names] is the chain
    of [extends] tags of the page: it starts with a page that has no
    tag, ends with the page itself, and every page in it extends the one
    before it.  So the list is in the order [parse] needs, root first,
    and for every such chain the loop does return. *)
Theorem ancestors_returns_the_lineage (Name : string) (names : list string) :
  (∃ fuel, ancestors ReadFile FindExtends fuel Name = Some (inr names))
  ↔ lineage ReadFile FindExtends Name names.
Proof.
  split.
  - intros [fuel Hrun]. apply (ancestors_loop_sound fuel Name Name [] names); [done| |done].
    by intros [|i] b p Hb Hp.
  - intros ((root & Hhead & Hroot) & Hlast & Hlinks).
    destruct names as [|n0 names0] using rev_ind; [done|]. clear IHnames0.
    rewrite last_snoc in Hlast. injection Hlast as ->.
    exists (S (length names0)). unfold ancestors.
    apply (ancestors_loop_complete names0 Name []); [|done].
    rewrite Hhead. done.
Qed.

Lemma ancestors_loop_cycle (P : string -> Prop) (fuel : nat) :
  extends_closed ReadFile FindExtends P ->
  ∀ name names, P name ->
    ancestors_loop ReadFile FindExtends fuel name names = None.
Proof.
  intros Hclosed. induction fuel as [|fuel IH]; intros name names Hname; [done|].
  destruct (Hclosed name Hname) as (base & He & Hne & Hbase).
  rewrite (ancestors_loop_step _ name base) by done. by apply IH.
Qed.

(** X22.  The loop stops only at a page without tag, at a page that
    cannot be read, or at a page that names itself.  When the pages
    reached from [Name] all extend another page among them (two
    templates that extend each other, or any longer cycle), the loop
    never ends: it neither returns nor reports the cycle, whatever the
    number of turns. *)
Theorem circular_extends_never_returns (P : string -> Prop) (Name : string) :
  extends_closed ReadFile FindExtends P -> P Name ->
  ∀ fuel, ancestors ReadFile FindExtends fuel Name = None.
Proof.
  intros Hclosed HName fuel. unfold ancestors.
  by apply (ancestors_loop_cycle P).
Qed.

End AncestorsFacts.

Lemma ancestors_returns_the_lineage_witness :
  lineage site_files find_tag "index.html" ["layout.html"; "index.html"]%string.
Proof.
  apply (ancestors_returns_the_lineage site_files find_tag).
  exists 2%nat. reflexivity.
Defined.

Lemma circular_extends_never_returns_witness :
  ancestors two_files find_tag 1000 "a.html" = None.
Proof.
  apply (circular_extends_never_returns two_files find_tag
           (λ name, name = "a.html" ∨ name = "b.html")%string).
  - intros name [->| ->].
    + exists "b.html"%string. split; [reflexivity|]. split; [discriminate|by right].
    + exists "a.html"%string. split; [reflexivity|]. split; [discriminate|by left].
  - by left.
Defined.

(** ** cmd/rex/run.go: the order of the accepted encodings *)

Lemma acceptEncodings_item_rank (encodings : list string) (item : string) :
  acceptEncodings_item encodings item =
    match rank_of item with
    | First => coding item :: encodings
    | Dropped => encodings
    | Behind => encodings ++ [coding item]
    end.
Proof.
  unfold acceptEncodings_item, rank_of, coding.
  destruct (Strings.SplitN item) as [unit0 [unit1|]]; [|done].
  cbn. destruct (Strings.HasPrefix unit1 "q=1"); [done|].
  by destruct (Strings.HasSuffix unit1 "0").
Qed.

Lemma acceptEncodings_fold (matches : list string) :
  ∀ encodings,
    fold_left acceptEncodings_item matches encodings
    = rev (coding <$> filter (λ item, is_first item = true) matches)
      ++ encodings
      ++ (coding <$> filter (λ item, is_behind item = true) matches).
Proof.
  induction matches as [|item matches IH]; intros encodings.
  - cbn. by rewrite app_nil_r.
  - cbn [fold_left]. rewrite IH, acceptEncodings_item_rank.
    rewrite !filter_cons. unfold is_first, is_behind.
    destruct (rank_of item); cbn.
    + rewrite decide_True by done. rewrite decide_False by done.
      cbn. by rewrite <- app_assoc.
    + rewrite !decide_False by done. done.
    + rewrite decide_False by done. rewrite decide_True by done.
      cbn. by rewrite <- app_assoc.
Qed.

(** X23.  The list built by [acceptEncodings]: first the codings whose
    weight starts with [q=1], the one named last in the header at the
    front; then, in the order of the header, the codings without weight
    and those with another weight that does not end in [0]; a coding
    whose weight ends in [0] (and does not start with [q=1]) is left
    out. *)
Theorem acceptEncodings_order (matches : list string) :
  acceptEncodings matches
  = rev (coding <$> filter (λ item, is_first item = true) matches)
    ++ (coding <$> filter (λ item, is_behind item = true) matches).
Proof. unfold acceptEncodings. by rewrite acceptEncodings_fold. Qed.

(** X24.  The coding that [filter] looks at, [encodings[0]], is the
    coding of the last item of the header whose weight starts with
    [q=1], whenever there is one: a coding without weight never comes
    before it, even when the header names it first. *)
Theorem last_explicit_weight_wins (before after : list string) (item : string) :
  is_first item = true ->
  Forall (λ other, is_first other = false) after ->
  head (acceptEncodings (before ++ item :: after)) = Some (coding item).
Proof.
  intros Hitem Hafter. unfold acceptEncodings. rewrite acceptEncodings_fold.
  rewrite filter_app, filter_cons, decide_True by done.
  assert (filter (λ other, is_first other = true) after = []) as ->.
  { induction Hafter as [|other after Hother _ IH]; [done|].
    rewrite filter_cons, decide_False; [done|]. by rewrite Hother. }
  rewrite fmap_app, rev_app_distr. done.
Qed.

Lemma last_explicit_weight_wins_witness :
  head (acceptEncodings ["gzip"; "deflate;q=1.0"; "*;q=0.5"; "gzip;q=0"]%string)
  = Some "deflate"%string.
Proof.
  apply (last_explicit_weight_wins ["gzip"%string] ["*;q=0.5"; "gzip;q=0"]%string
           "deflate;q=1.0"%string).
  - reflexivity.
  - repeat constructor.
Defined.
